(** * phone-book-cli: a shallow embedding of [main.py]

    The program is an interactive contact book.  Its state is the pair of
    globals [contacts] (an insertion-ordered dictionary from integer ids to
    [Contact] objects) and [next_id], the terminal it prints to, and the
    file [contacts.csv] of the working directory.

    Conventions of the embedding:
    - a Python value that reaches [Contact.__init__] is a [value]; the
      fields of a [Contact] are the values it was given, verbatim;
    - a [str] is a [string] (its UTF-8 bytes); [len(s) == 0] and [a in b]
      mean the same on code points and on their UTF-8 encoding;
    - the insertion-ordered [dict] is an association list in insertion
      order, with the dictionary's own rules for assignment and [del];
    - statements run in a state-and-exception monad: a raised exception
      carries the state at the point of the [raise];
    - [validate_email] (package validate_email) and [str.lower] are
      library functions: the development is parametric in both;
    - the [csv] module is taken at the level of records: a file is the
      list of records written to it, header first, as UTF-8 text.  The
      reader is advanced record by record and raises [_csv.Error] at a
      record with a cell of more than [csv.field_size_limit()] characters;
      the writer has no such limit.  Failures of the file system other than
      a missing file, and files that are not UTF-8 text, are outside the
      model. *)

From Stdlib Require Import String Ascii ZArith List Bool Lia DecimalString.
Import ListNotations.

Open Scope string_scope.
Open Scope Z_scope.

(** ** Python values *)

(** The values the embedding follows: [None], [str], [int], [bool].  Sized
    values that are no text (lists, bytes, tuples, dicts) are not among
    them. *)
Inductive value : Type :=
| VNone
| VStr (s : string)
| VInt (n : Z)
| VBool (b : bool).

(** [isinstance(v, str)] *)
Definition isinstance_str (v : value) : bool :=
  match v with VStr _ => true | _ => false end.

(** [v is None] *)
Definition is_None (v : value) : bool :=
  match v with VNone => true | _ => false end.

(** [str(v)], as [format] and the csv writer apply it. *)
Definition py_str (v : value) : string :=
  match v with
  | VNone => "None"
  | VStr s => s
  | VInt n => NilZero.string_of_int (Z.to_int n)
  | VBool true => "True"
  | VBool false => "False"
  end.

Definition str_of_nat (n : nat) : string :=
  NilZero.string_of_uint (Nat.to_uint n).

(** [len(s)] of a [str]. *)
Definition len (s : string) : Z := Z.of_nat (String.length s).

(** [q in s] for two [str]: [q] occurs in [s] as a contiguous block. *)
Fixpoint starts_with (q s : string) : bool :=
  match q, s with
  | EmptyString, _ => true
  | String a q', String b s' => Ascii.eqb a b && starts_with q' s'
  | String _ _, EmptyString => false
  end.

Fixpoint str_in (q s : string) : bool :=
  starts_with q s ||
  match s with
  | EmptyString => false
  | String _ s' => str_in q s'
  end.

(** ** class ContactValidationException *)

Record ContactValidationException : Type := mkCVE {
  message : string;
  solution : string
}.

(** [__str__] *)
Definition CVE_str (e : ContactValidationException) : string :=
  message e ++ "; " ++ solution e.

Definition not_str_x (x : string) : ContactValidationException :=
  mkCVE (x ++ " value is not a string") ("make sure " ++ x ++ " value is a string").
Definition not_str_name := not_str_x "name".
Definition not_str_phone := not_str_x "phone".
Definition not_str_email := not_str_x "email".

Definition empty_x (x : string) : ContactValidationException :=
  mkCVE (x ++ " is empty") ("please provide a non-empty " ++ x).
Definition empty_name := empty_x "name".
Definition empty_phone := empty_x "phone".

Definition malformed_email : ContactValidationException :=
  mkCVE "email is malformed" "please provide a valid email".

(** ** Exceptions *)

Inductive exn : Type :=
| ValidationError (e : ContactValidationException)
| KeyError (k : Z)
| AttributeError
| TypeError
| FileNotFoundError
| KeyboardInterrupt
| csv_Error.

(** ** class Contact *)

Record Contact : Type := mkContact {
  name : value;
  phone : value;
  email : value
}.

(** ** The insertion-ordered dictionary *)

Section Dict.
Context {K V : Type} (eqb : K -> K -> bool).

Definition dict : Type := list (K * V).

(** [d.keys()], also the order of [for k in d]. *)
Definition dict_keys (d : dict) : list K := map fst d.

(** [d.get(k)] *)
Fixpoint dict_get (k : K) (d : dict) : option V :=
  match d with
  | [] => None
  | (k', v) :: d' => if eqb k k' then Some v else dict_get k d'
  end.

(** [d[k] = v]: a present key keeps its place, a new key goes last. *)
Fixpoint dict_setitem (k : K) (v : V) (d : dict) : dict :=
  match d with
  | [] => [(k, v)]
  | (k', v') :: d' =>
      if eqb k k' then (k', v) :: d' else (k', v') :: dict_setitem k v d'
  end.

(** [del d[k]]; [None] stands for the [KeyError]. *)
Fixpoint dict_delitem (k : K) (d : dict) : option dict :=
  match d with
  | [] => None
  | (k', v') :: d' =>
      if eqb k k' then Some d'
      else match dict_delitem k d' with
           | Some d'' => Some ((k', v') :: d'')
           | None => None
           end
  end.
End Dict.

Arguments dict : clear implicits.

(** ** The csv module, at the level of records *)

(** What [csv.reader] yields and [csv.writer] is given: records of cells. *)
Definition csv_record : Type := list string.
Definition csv_file : Type := list csv_record.

(** The dictionary [csv.DictReader] builds for one record: the cells zipped
    with the field names, then every field name past the record's length set
    to [restval], which is [None].  (Surplus cells go under the key [None],
    which no [row.get] of the program asks for.) *)
Fixpoint zip_row (fieldnames : list string) (cells : csv_record)
  (d : dict string (option string)) : dict string (option string) :=
  match fieldnames with
  | [] => d
  | f :: fs =>
      match cells with
      | c :: cs => zip_row fs cs (dict_setitem String.eqb f (Some c) d)
      | [] => zip_row fs [] (dict_setitem String.eqb f None d)
      end
  end.

(** [csv.field_size_limit()], which the program leaves at its default. *)
Definition field_size_limit : Z := 131072.

(** A byte [10xxxxxx], which goes on with a character begun before it. *)
Definition is_continuation (c : ascii) : bool :=
  match c with Ascii _ _ _ _ _ _ b6 b7 => b7 && negb b6 end.

(** The number of characters of a [str]: the bytes of its UTF-8 form that
    begin a character. *)
Fixpoint codepoints (s : string) : Z :=
  match s with
  | EmptyString => 0
  | String c s' => (if is_continuation c then 0 else 1) + codepoints s'
  end.

(** The csv reader parses the record: no cell of it has more characters than
    the limit.  At a record that is not so, it raises [_csv.Error]. *)
Definition readable (r : csv_record) : bool :=
  forallb (fun c => codepoints c <=? field_size_limit) r.

Definition is_blank (r : csv_record) : bool :=
  match r with [] => true | _ => false end.

(** The rows [csv.DictReader(f)] yields when it can read all of [f]: the
    first record gives the field names; blank records after it are passed
    over. *)
Definition DictReader (f : csv_file) : list (dict string (option string)) :=
  match f with
  | [] => []
  | fieldnames :: records =>
      map (fun r => zip_row fieldnames r [])
          (filter (fun r => negb (is_blank r)) records)
  end.

(** [row.get(key)] *)
Definition row_get (key : string) (row : dict string (option string)) : value :=
  match dict_get String.eqb key row with
  | Some (Some s) => VStr s
  | Some None | None => VNone
  end.

(** The cell the csv writer emits for a value: [None] becomes the empty
    cell, a [str] is written as it is, anything else through [str()]. *)
Definition csv_cell (v : value) : string :=
  match v with
  | VNone => ""
  | _ => py_str v
  end.

(** [DictWriter(fieldnames=["name", "phone", "email"])] applied to
    [vars(contact)]. *)
Definition DictWriter_row (c : Contact) : csv_record :=
  [csv_cell (name c); csv_cell (phone c); csv_cell (email c)].

Definition DictWriter_header : csv_record := ["name"; "phone"; "email"].

(** ** Program state *)

Record State : Type := mkState {
  contacts : dict Z Contact;
  next_id : Z;
  stdout : list string;            (* lines printed so far, oldest first *)
  file : option csv_file           (* contacts.csv, when it exists *)
}.

(** The state at program start: [contacts = {}], [next_id = 0]. *)
Definition initial (f : option csv_file) : State :=
  mkState [] 0 [] f.

(** ** Statements: state and exceptions *)

Inductive outcome (A : Type) : Type :=
| Ok (a : A) (st : State)
| Raise (e : exn) (st : State).
Arguments Ok {A} a st.
Arguments Raise {A} e st.

Definition M (A : Type) : Type := State -> outcome A.

Definition ret {A} (a : A) : M A := fun st => Ok a st.
Definition raise {A} (e : exn) : M A := fun st => Raise e st.
Definition bind {A B} (m : M A) (k : A -> M B) : M B :=
  fun st => match m st with
            | Ok a st' => k a st'
            | Raise e st' => Raise e st'
            end.

Declare Scope py_scope.
Delimit Scope py_scope with py.
Notation "x <- m ;; k" := (bind m (fun x => k))
  (at level 61, m at next level, right associativity) : py_scope.
Notation "m ;;; k" := (bind m (fun _ => k))
  (at level 61, right associativity) : py_scope.
Open Scope py_scope.

(** [try: body except ContactValidationException as e: handler(e)] *)
Definition try_except_CVE {A} (body : M A)
  (handler : ContactValidationException -> M A) : M A :=
  fun st => match body st with
            | Raise (ValidationError e) st' => handler e st'
            | r => r
            end.

(** [try: body except KeyboardInterrupt: handler] *)
Definition try_except_interrupt {A} (body : M A) (handler : M A) : M A :=
  fun st => match body st with
            | Raise KeyboardInterrupt st' => handler st'
            | r => r
            end.

Definition state_of {A} (r : outcome A) : State :=
  match r with Ok _ st => st | Raise _ st => st end.

(** [print(line)] *)
Definition print (line : string) : M unit :=
  fun st => Ok tt (mkState (contacts st) (next_id st) (stdout st ++ [line]) (file st)).

(** [contacts[idd]] *)
Definition contacts_getitem (idd : Z) : M Contact :=
  fun st => match dict_get Z.eqb idd (contacts st) with
            | Some c => Ok c st
            | None => Raise (KeyError idd) st
            end.

(** [contacts[idd] = c] *)
Definition contacts_setitem (idd : Z) (c : Contact) : M unit :=
  fun st => Ok tt (mkState (dict_setitem Z.eqb idd c (contacts st))
                           (next_id st) (stdout st) (file st)).

(** [del contacts[idd]] *)
Definition contacts_delitem (idd : Z) : M unit :=
  fun st => match dict_delitem Z.eqb idd (contacts st) with
            | Some d => Ok tt (mkState d (next_id st) (stdout st) (file st))
            | None => Raise (KeyError idd) st
            end.

(** reading the global [next_id], and [next_id += 1] *)
Definition get_next_id : M Z := fun st => Ok (next_id st) st.
Definition incr_next_id : M unit :=
  fun st => Ok tt (mkState (contacts st) (next_id st + 1) (stdout st) (file st)).

Definition get_contacts : M (dict Z Contact) := fun st => Ok (contacts st) st.

(** [if b: raise e] *)
Definition raise_if (b : bool) (e : exn) : M unit :=
  if b then raise e else ret tt.

(** [for x in l: acc = body(x, acc)] *)
Fixpoint for_each {A B} (body : A -> B -> M B) (l : list A) (acc : B) : M B :=
  match l with
  | [] => ret acc
  | x :: l' => acc' <- body x acc ;; for_each body l' acc'
  end.

(** [len(v)] for the values of [value]: the length of a [str]; [None], an
    [int] and a [bool] have no [len()] and give a [TypeError]. *)
Definition py_len (v : value) : M Z :=
  match v with
  | VStr s => ret (len s)
  | _ => raise TypeError
  end.

(** [v is not None and len(v) > 0] *)
Definition not_None_and_nonempty (v : value) : M bool :=
  if negb (is_None v) then l <- py_len v ;; ret (0 <? l) else ret false.

Definition newline : string := String (ascii_of_nat 10) EmptyString.

(** The user's choices at the main menu, with the answers given to the
    prompts of the chosen action. *)
Inductive action : Type :=
| List_
| Search (q : value)
| Create (name phone email : value)
| Delete (q : value) (pick : nat) (y : option bool)
| Export
| Import.

(** What happens between two menus: an action of the program, or somebody
    else replacing or removing [contacts.csv]. *)
Inductive event : Type :=
| Act (a : action)
| External (f : option csv_file).

(** ASCII lower-casing, an instance of [str.lower] for concrete runs. *)
Definition ascii_lower_char (c : ascii) : ascii :=
  let n := nat_of_ascii c in
  if (Nat.leb 65 n && Nat.leb n 90)%bool then ascii_of_nat (n + 32) else c.

Fixpoint ascii_lower (s : string) : string :=
  match s with
  | EmptyString => EmptyString
  | String c s' => String (ascii_lower_char c) (ascii_lower s')
  end.

(** A small email check, an instance of [validate_email] for concrete runs:
    some text, an [@], and a dot later on. *)
Fixpoint has_dot_after_at (seen_at : bool) (s : string) : bool :=
  match s with
  | EmptyString => false
  | String c s' =>
      if Ascii.eqb c "@" then negb seen_at && has_dot_after_at true s'
      else if Ascii.eqb c " " then false
      else (seen_at && Ascii.eqb c "." && negb (String.eqb s' "")) || has_dot_after_at seen_at s'
  end.

Definition simple_validate_email (s : string) : bool :=
  match s with
  | EmptyString => false
  | String c s' => negb (Ascii.eqb c "@") && has_dot_after_at false s
  end.

(** Sample data for concrete runs. *)
Definition ada : Contact :=
  mkContact (VStr "Ada Lovelace") (VStr "555-1234") (VStr "ada@example.com").
Definition zed : Contact := mkContact (VStr "Zed") (VStr "123") (VStr "").
Definition quinn : Contact := mkContact (VStr "Q") (VStr "1") VNone.

(** A store with a gap in its ids and a contact whose email is [None]. *)
Definition sample_store : State :=
  mkState [(0, ada); (2, quinn)] 3 [] None.

(** A session that ends in the contacts and the counter of [sample_store]:
    two creations, an import of a file without email column, a deletion. *)
Definition sample_session : list event :=
  [ Act (Create (VStr "Ada Lovelace") (VStr "555-1234") (VStr "ada@example.com"));
    Act (Create (VStr "Bob") (VStr "777") (VStr ""));
    External (Some [["name"; "phone"]; ["Q"; "1"]]);
    Act Import;
    Act (Delete (VStr "bob") 0 (Some true)) ].

(** A store whose emails are all texts. *)
Definition text_store : State :=
  mkState [(0, ada); (1, zed)] 2 [] None.

(** The file of the example of the specification. *)
Definition sample_file : csv_file :=
  [ ["name"; "phone"; "email"]; ["Ann"; ""; "x@y.com"]; ["Zed"; "123"; ""] ].

(** A text of [2 ^ n] times the characters of [s]. *)
Fixpoint doubled (n : nat) (s : string) : string :=
  match n with
  | O => s
  | S n' => let d := doubled n' s in d ++ d
  end.

(** A name of 131073 characters, one more than a cell may have for the csv
    reader. *)
Definition long_name : string := "a" ++ doubled 17 "a".

(** A file whose second record has that name, between two records that are
    fine. *)
Definition oversize_file : csv_file :=
  [ ["name"; "phone"; "email"];
    ["Ada"; "1"; ""];
    [long_name; "2"; ""];
    ["Zed"; "123"; ""] ].

Section Program.
(* A lemma takes the library functions its statement names, and no other. *)
Set Default Proof Using "Type".

(** [validate_email.validate_email], on a [str]. *)
Variable validate_email : string -> bool.
(** [str.lower] *)
Variable lower : string -> string.
(** [path]: [os.path.join(os.getcwd(), "contacts.csv")]. *)
Variable path : string.

(** [validate_email(v)] *)
Definition call_validate_email (v : value) : M bool :=
  match v with
  | VStr s => ret (validate_email s)
  | _ => raise TypeError
  end.

(** [v.lower()] *)
Definition str_lower (v : value) : M string :=
  match v with
  | VStr s => ret (lower s)
  | _ => raise AttributeError
  end.

(** [Contact.__init__] *)
Definition Contact_init (name phone email : value) : M Contact :=
  raise_if (negb (isinstance_str name)) (ValidationError not_str_name) ;;;
  raise_if (negb (isinstance_str phone)) (ValidationError not_str_phone) ;;;
  raise_if (negb (isinstance_str email) && negb (is_None email))
           (ValidationError not_str_email) ;;;
  n <- py_len name ;;
  raise_if (n =? 0) (ValidationError empty_name) ;;;
  p <- py_len phone ;;
  raise_if (p =? 0) (ValidationError empty_phone) ;;;
  bad <- (present <- not_None_and_nonempty email ;;
          if present then ok <- call_validate_email email ;; ret (negb ok)
          else ret false) ;;
  raise_if bad (ValidationError malformed_email) ;;;
  ret (mkContact name phone email).

(** [Contact.__str__] *)
Definition Contact_str (c : Contact) : M string :=
  present <- not_None_and_nonempty (email c) ;;
  ret ("🧑 " ++ py_str (name c) ++ " / ☎ " ++ py_str (phone c)
       ++ (if present then " / 📧 " ++ py_str (email c) else "")).

(** [listt(ids)] *)
Definition listt (ids : list Z) : M unit :=
  for_each (fun idd _ =>
              contact <- contacts_getitem idd ;;
              s <- Contact_str contact ;;
              print s) ids tt.

(** One turn of the loop of [query], [q] already in lower case. *)
Definition query_body (q : string) (idd : Z) (ids : list Z) : M (list Z) :=
  contact <- contacts_getitem idd ;;
  n <- str_lower (name contact) ;;
  if str_in q n then ret (ids ++ [idd])%list
  else
    p <- str_lower (phone contact) ;;
    if str_in q p then ret (ids ++ [idd])%list
    else if negb (is_None (email contact)) then
      e <- str_lower (email contact) ;;
      if str_in q e then ret (ids ++ [idd])%list else ret ids
    else ret ids.

(** [query(q)] *)
Definition query (q : value) : M (list Z) :=
  q <- str_lower q ;;
  d <- get_contacts ;;
  for_each (query_body q) (dict_keys d) [].

(** The body of the [try] of [action_create]:
    [contacts[next_id] = Contact(name, phone, email); next_id += 1]. *)
Definition create (name phone email : value) : M unit :=
  c <- Contact_init name phone email ;;
  i <- get_next_id ;;
  contacts_setitem i c ;;;
  incr_next_id.

(** [action_create], the prompt having answered [name], [phone], [email]. *)
Definition action_create (name phone email : value) : M unit :=
  print "" ;;;
  try_except_CVE
    (create name phone email ;;; print "✔ Created!")
    (fun e => print ("❌ Error: " ++ CVE_str e ++ " 🤔.")) ;;;
  print "".

(** [action_list] *)
Definition action_list : M unit :=
  d <- get_contacts ;;
  (if Z.of_nat (length d) =? 0
   then print "Empty 🤷! Try creating a new contact."
   else listt (dict_keys d)) ;;;
  print "".

(** [action_search], the prompt having answered [q]. *)
Definition action_search (q : value) : M unit :=
  print "" ;;;
  nonempty <- not_None_and_nonempty q ;;
  (if nonempty then
     ids <- query q ;;
     if 0 <? Z.of_nat (length ids) then listt ids
     else print "Found no matches 🤦! Try a different query."
   else print "Empty query 🤷! Please provide a non-empty query text.") ;;;
  print "".

(** [action_delete]: [q] answers the query prompt, [pick] is the line the
    user selects when several contacts match (a selection outside the menu
    stands for leaving the prompt with an interrupt), [y] answers the
    confirmation. *)
Definition action_delete (q : value) (pick : nat) (y : option bool) : M unit :=
  print "" ;;;
  nonempty <- not_None_and_nonempty q ;;
  (if nonempty then
     ids <- query q ;;
     to_delete_id <-
       (if Z.of_nat (length ids) =? 1 then
          match ids with
          | idd :: _ =>
              contact <- contacts_getitem idd ;;
              s <- Contact_str contact ;;
              print s ;;; print "" ;;; ret (Some idd)
          | [] => ret None
          end
        else if 0 <? Z.of_nat (length ids) then
          for_each (fun idd (_ : unit) =>
                      contact <- contacts_getitem idd ;;
                      _ <- Contact_str contact ;; ret tt) ids tt ;;;
          match nth_error ids pick with
          | Some idd => ret (Some idd)
          | None => raise KeyboardInterrupt
          end
        else ret None) ;;
     match to_delete_id with
     | Some idd =>
         y <- match y with
              | None => print "" ;;; ret false
              | Some b => ret b
              end ;;
         if y then contacts_delitem idd ;;; print "✔ Deleted!"
         else print "❌ Deletion cancelled."
     | None => print "Found no matches 🤦! Try a different query."
     end
   else print "Empty query 🤷! Please provide a non-empty query text.") ;;;
  print "".

(** [open(path, "wt")]: the file exists and is empty. *)
Definition open_wt : M unit :=
  fun st => Ok tt (mkState (contacts st) (next_id st) (stdout st) (Some [])).

(** One record written to the open file. *)
Definition write_record (r : csv_record) : M unit :=
  fun st => match file st with
            | Some f => Ok tt (mkState (contacts st) (next_id st) (stdout st)
                                       (Some (f ++ [r])%list))
            | None => Raise FileNotFoundError st
            end.

(** [open(path, "rt")]: the records of the file, to be read one by one. *)
Definition open_rt : M csv_file :=
  fun st => match file st with
            | Some f => Ok f st
            | None => Raise FileNotFoundError st
            end.

(** [action_export] *)
Definition action_export : M unit :=
  open_wt ;;;
  write_record DictWriter_header ;;;
  d <- get_contacts ;;
  for_each (fun idd (_ : unit) =>
              contact <- contacts_getitem idd ;;
              write_record (DictWriter_row contact)) (dict_keys d) tt ;;;
  d <- get_contacts ;;
  (if Z.of_nat (length d) =? 0
   then print "✔ Exported (although empty 🤷)!"
   else print "✔ Exported!") ;;;
  print "".

(** One turn of the loop of [action_import]; [acc] holds the locals
    [count] and [any_row_error]. *)
Definition import_body (row_i : nat) (row : dict string (option string))
  (acc : Z * bool) : M (Z * bool) :=
  let name := row_get "name" row in
  let phone := row_get "phone" row in
  let email := row_get "email" row in
  try_except_CVE
    (raise_if (is_None name) (ValidationError empty_name) ;;;
     raise_if (is_None phone) (ValidationError empty_phone) ;;;
     create name phone email ;;;
     ret (fst acc + 1, snd acc))
    (fun e =>
       print ("❌ Error in row " ++ str_of_nat row_i ++ " (skipping): "
              ++ CVE_str e ++ " 🤔.") ;;;
       ret (fst acc, true)).

(** [for row_i, row in enumerate(r)] with its body, [r] being the
    [csv.DictReader] over the records not yet read.  Each turn first
    advances the reader: it raises [_csv.Error] at a record it cannot parse
    (outside the [try] of the body, so nothing catches it), passes over a
    blank record, and makes the row of any other record; [row_i] counts the
    rows. *)
Fixpoint import_loop (fieldnames : csv_record) (records : list csv_record)
  (row_i : nat) (acc : Z * bool) : M (Z * bool) :=
  match records with
  | [] => ret acc
  | r :: rest =>
      if negb (readable r) then raise csv_Error
      else if is_blank r then import_loop fieldnames rest row_i acc
      else acc' <- import_body row_i (zip_row fieldnames r []) acc ;;
           import_loop fieldnames rest (S row_i) acc'
  end.

(** The [with open(...)] block of [action_import]: the loop over the rows,
    from [count = 0] and [any_row_error = False].  The reader takes the
    field names from the first record when the loop asks for the first row;
    in an empty file there is none and the loop ends at once. *)
Definition import_rows : M (Z * bool) :=
  f <- open_rt ;;
  match f with
  | [] => ret (0, false)
  | fieldnames :: records =>
      if negb (readable fieldnames) then raise csv_Error
      else import_loop fieldnames records 0 (0, false)
  end.

(** [try: body except FileNotFoundError: handler] *)
Definition try_except_FileNotFound {A} (body : M A) (handler : M A) : M A :=
  fun st => match body st with
            | Raise FileNotFoundError st' => handler st'
            | r => r
            end.

(** [action_import] *)
Definition action_import : M unit :=
  try_except_FileNotFound
    (acc <- import_rows ;;
     (if snd acc then print "" else ret tt) ;;;
     (if 0 <? fst acc then
        print ("✔ Imported " ++ py_str (VInt (fst acc)) ++ "!")
      else if fst acc =? 0 then print "✔ Imported nothing 🤷!"
      else ret tt) ;;;
     print "")
    (print ("❌ " ++ path ++ " file not found!" ++ newline
            ++ "📄 Put your CSV file in the current working directory as contacts.csv to be able to import it.") ;;;
     print "").

(** [actions[action]()] *)
Definition run_action (a : action) : M unit :=
  match a with
  | List_ => action_list
  | Search q => action_search q
  | Create n p e => action_create n p e
  | Delete q pick y => action_delete q pick y
  | Export => action_export
  | Import => action_import
  end.

(** One turn of the main menu loop: the chosen action, an interrupt
    inside it caught and reported. *)
Definition menu_turn (a : action) : M unit :=
  try_except_interrupt (run_action a)
    (print "" ;;; print "Interrupted the current action 🤷." ;;; print "").

Definition external (f : option csv_file) : M unit :=
  fun st => Ok tt (mkState (contacts st) (next_id st) (stdout st) f).

Definition do_event (ev : event) : M unit :=
  match ev with
  | Act a => menu_turn a
  | External f => external f
  end.

(** A session: the events in order, ending at the first exception that
    nothing catches. *)
Fixpoint session (evs : list event) : M unit :=
  match evs with
  | [] => ret tt
  | ev :: evs' => do_event ev ;;; session evs'
  end.

(** ** What the specification speaks of *)

(** A check of the constructor: when it fails on a candidate triple
    [(name, phone, email)], and the error it then raises. *)
Definition check : Type :=
  (value * value * value -> bool) * ContactValidationException.

(** The value is not text. *)
Definition not_text (v : value) : bool :=
  match v with VStr _ => false | _ => true end.

(** The value is neither text nor absent. *)
Definition not_text_nor_absent (v : value) : bool :=
  match v with VStr _ | VNone => false | _ => true end.

(** The value is the empty text. *)
Definition is_empty_text (v : value) : bool :=
  match v with VStr EmptyString => true | _ => false end.

(** The value is a non-empty text that the email-syntax check rejects. *)
Definition is_malformed (v : value) : bool :=
  match v with
  | VStr EmptyString => false
  | VStr s => negb (validate_email s)
  | _ => false
  end.

(** The six checks in the order of the specification: type-check name,
    type-check phone, type-check email, empty-check name, empty-check phone,
    syntax-check email. *)
Definition checks : list check :=
  [ (fun a => not_text (fst (fst a)), not_str_name);
    (fun a => not_text (snd (fst a)), not_str_phone);
    (fun a => not_text_nor_absent (snd a), not_str_email);
    (fun a => is_empty_text (fst (fst a)), empty_name);
    (fun a => is_empty_text (snd (fst a)), empty_phone);
    (fun a => is_malformed (snd a), malformed_email) ].

(** The error of the earliest failing check, if any check fails. *)
Definition first_failure (a : value * value * value)
  : option ContactValidationException :=
  match find (fun c : check => fst c a) checks with
  | Some c => Some (snd c)
  | None => None
  end.

(** The invariant of a contact record. *)
Definition valid_contact (c : Contact) : Prop :=
  (exists n, name c = VStr n /\ n <> "") /\
  (exists p, phone c = VStr p /\ p <> "") /\
  (email c = VNone \/ email c = VStr "" \/
   exists e, email c = VStr e /\ validate_email e = true).

(** The invariant of the store. *)
Definition invariant (st : State) : Prop :=
  Forall valid_contact (map snd (contacts st)) /\
  0 <= next_id st /\
  (forall k, In k (dict_keys (contacts st)) -> 0 <= k < next_id st) /\
  NoDup (dict_keys (contacts st)).

(** From [st] to [st'] the store only grows by fresh ids: the invariant is
    kept, the counter does not go down, and an id below the old counter
    holds in [st'] nothing but what it held in [st]. *)
Definition grows (st st' : State) : Prop :=
  invariant st ->
  invariant st' /\
  next_id st <= next_id st' /\
  (forall k c, dict_get Z.eqb k (contacts st') = Some c -> k < next_id st ->
               dict_get Z.eqb k (contacts st) = Some c).

(** [q] is a substring of [s]. *)
Definition substring (q s : string) : Prop :=
  exists pre post, s = pre ++ q ++ post.

(** The field is a text whose lower-cased form contains the lower-cased
    query. *)
Definition field_matches (q : string) (v : value) : Prop :=
  exists s, v = VStr s /\ substring (lower q) (lower s).

(** The contact matches the query: name, or phone, or a present email. *)
Definition matches (q : string) (c : Contact) : Prop :=
  field_matches q (name c) \/ field_matches q (phone c) \/
  field_matches q (email c).

(** The test the loop of [query] makes on a contact whose fields are well
    typed, [q] already in lower case. *)
Definition query_test (q : string) (c : Contact) : bool :=
  match name c, phone c with
  | VStr n, VStr p =>
      str_in q (lower n) || str_in q (lower p) ||
      match email c with
      | VStr e => str_in q (lower e)
      | _ => false
      end
  | _, _ => false
  end.

(** [l1] is [l2] with some elements left out, the order kept. *)
Inductive subseq {A : Type} : list A -> list A -> Prop :=
| subseq_nil : subseq [] []
| subseq_skip : forall x l1 l2, subseq l1 l2 -> subseq l1 (x :: l2)
| subseq_keep : forall x l1 l2, subseq l1 l2 -> subseq (x :: l1) (x :: l2).

(** The verdict on one row of an import: the error that skips it, or the
    contact it becomes. *)
Definition row_result (row : dict string (option string))
  : ContactValidationException + Contact :=
  let n := row_get "name" row in
  let p := row_get "phone" row in
  let e := row_get "email" row in
  if is_None n then inl empty_name
  else if is_None p then inl empty_phone
  else match first_failure (n, p, e) with
       | Some err => inl err
       | None => inr (mkContact n p e)
       end.

(** The contacts of the rows that pass, in order. *)
Fixpoint imported (rows : list (dict string (option string))) : list Contact :=
  match rows with
  | [] => []
  | row :: rows' =>
      match row_result row with
      | inr c => c :: imported rows'
      | inl _ => imported rows'
      end
  end.

(** The lines logged for the rows that are skipped, the first row being
    row [i]. *)
Fixpoint skipped_lines (i : nat) (rows : list (dict string (option string)))
  : list string :=
  match rows with
  | [] => []
  | row :: rows' =>
      match row_result row with
      | inr _ => skipped_lines (S i) rows'
      | inl e =>
          ("❌ Error in row " ++ str_of_nat i ++ " (skipping): "
           ++ CVE_str e ++ " 🤔.") :: skipped_lines (S i) rows'
      end
  end.

(** Some row is skipped. *)
Definition any_skipped (rows : list (dict string (option string))) : bool :=
  existsb (fun row => match row_result row with inl _ => true | inr _ => false end)
          rows.

(** What an import prints at its end for a count and a flag: a blank line
    when a row was skipped, then the count of imported contacts. *)
Definition import_report (count : Z) (any_row_error : bool) : list string :=
  ((if any_row_error then [""] else [])
   ++ [if 0 <? count then ("✔ Imported " ++ py_str (VInt count) ++ "!")%string
       else "✔ Imported nothing 🤷!"]
   ++ [""])%list.

(** What an export prints. *)
Definition export_report (d : dict Z Contact) : list string :=
  [match d with [] => "✔ Exported (although empty 🤷)!" | _ => "✔ Exported!" end;
   ""].

(** The file an export writes. *)
Definition exported_file (d : dict Z Contact) : csv_file :=
  DictWriter_header :: map DictWriter_row (map snd d).

(** The contacts [cs] under the consecutive ids [i], [i + 1], ... *)
Fixpoint numbered (i : Z) (cs : list Contact) : dict Z Contact :=
  match cs with
  | [] => []
  | c :: cs' => (i, c) :: numbered (i + 1) cs'
  end.

(** What a contact is after a trip through the file: an absent email comes
    back as the empty text. *)
Definition through_csv (c : Contact) : Contact :=
  mkContact (name c) (phone c) (VStr (csv_cell (email c))).

(** Export then import. *)
Definition export_then_import : M unit :=
  action_export ;;; action_import.

(** The round trip as the specification words it: the store gains, under
    fresh consecutive ids, contacts whose three fields equal the originals. *)
Definition exact_round_trip (st : State) : Prop :=
  contacts (state_of (export_then_import st))
  = (contacts st ++ numbered (next_id st) (map snd (contacts st)))%list.

(** ** What the further properties speak of *)

(** The state [st] after the lines [out] were printed. *)
Definition printed (st : State) (out : list string) : State :=
  mkState (contacts st) (next_id st) (stdout st ++ out) (file st).

(** The line that shows a contact: name and phone, and the email when it is
    a non-empty text. *)
Definition contact_line (c : Contact) : string :=
  "🧑 " ++ py_str (name c) ++ " / ☎ " ++ py_str (phone c)
  ++ match email c with
     | VStr (String a e) => " / 📧 " ++ String a e
     | _ => ""
     end.

(** The lines of the contacts stored under [ids]. *)
Definition lines_of (d : dict Z Contact) (ids : list Z) : list string :=
  map (fun k => match dict_get Z.eqb k d with
                | Some c => contact_line c
                | None => ""
                end) ids.

(** The ids of the store [d] whose contact passes the test of [query] for
    the text [q], in the order of the store. *)
Definition query_ids (q : string) (d : dict Z Contact) : list Z :=
  filter (fun k => match dict_get Z.eqb k d with
                   | Some c => query_test (lower q) c
                   | None => false
                   end) (dict_keys d).

(** The store [d] without the entry under [k]. *)
Definition without (k : Z) (d : dict Z Contact) : dict Z Contact :=
  match dict_delitem Z.eqb k d with
  | Some d' => d'
  | None => d
  end.

(** The contact [action_delete] goes on with: the only match, or the match
    the user picks among several. *)
Definition delete_choice (ids : list Z) (pick : nat) : option Z :=
  match ids with
  | [] => None
  | [k] => Some k
  | _ => nth_error ids pick
  end.

(** An answer of a text prompt: a text, or [None]. *)
Definition text_or_None (v : value) : bool :=
  match v with VNone | VStr _ => true | _ => false end.

(** Every id of [ids] is a key of [d] whose contact has a text or [None] as
    email. *)
Definition listable (d : dict Z Contact) (ids : list Z) : Prop :=
  forall k, In k ids ->
            exists c, dict_get Z.eqb k d = Some c /\ text_or_None (email c) = true.


(** The message for a file that is not there. *)
Definition file_not_found_message : string :=
  "❌ " ++ path ++ " file not found!" ++ newline
  ++ "📄 Put your CSV file in the current working directory as contacts.csv to be able to import it.".

(** ** What the reader gets to read *)

(** Every record of the file can be parsed. *)
Definition all_readable (f : csv_file) : bool := forallb readable f.

(** The records before the first one that cannot be parsed. *)
Fixpoint readable_prefix (records : list csv_record) : list csv_record :=
  match records with
  | [] => []
  | r :: rest => if readable r then r :: readable_prefix rest else []
  end.

(** The rows an import gets from the reader before the reader ends or
    fails. *)
Definition rows_read (f : csv_file) : list (dict string (option string)) :=
  match f with
  | [] => []
  | fieldnames :: records =>
      if readable fieldnames then DictReader (fieldnames :: readable_prefix records)
      else []
  end.

(** The three cells written for the contact are within the limit of the
    reader. *)
Definition fits (c : Contact) : Prop := readable (DictWriter_row c) = true.

(** The state of an import once the rows [rows] are through, the first of
    them being row [i]: the contacts of the accepted rows stored under fresh
    ids, the rejected rows logged. *)
Definition after_rows (st : State) (i : nat)
  (rows : list (dict string (option string))) : State :=
  mkState (contacts st ++ numbered (next_id st) (imported rows))%list
    (next_id st + Z.of_nat (length (imported rows)))
    (stdout st ++ skipped_lines i rows) (file st).

(** ** Strings *)

Lemma starts_with_spec (q s : string) :
  starts_with q s = true <-> exists post, s = q ++ post.
Proof.
  revert s; induction q as [|a q IH]; intros s; simpl.
  - split; [intros _; now exists s | reflexivity].
  - destruct s as [|b s].
    + split; [discriminate | intros [post H]; discriminate].
    + rewrite andb_true_iff, Ascii.eqb_eq, IH. split.
      * intros [-> [post ->]]. now exists post.
      * intros [post H]. injection H as -> ->. split; [reflexivity | now exists post].
Qed.

Lemma str_in_spec (q s : string) : str_in q s = true <-> substring q s.
Proof.
  unfold substring. induction s as [|b s IH]; simpl.
  - rewrite orb_false_r, starts_with_spec. split.
    + intros [post H]. now exists "", post.
    + intros [pre [post H]]. destruct pre; [now exists post | discriminate].
  - rewrite orb_true_iff, starts_with_spec, IH. split.
    + intros [[post H] | [pre [post H]]].
      * now exists "", post.
      * exists (String b pre), post. simpl. now rewrite H.
    + intros [pre [post H]]. destruct pre as [|c pre]; simpl in H.
      * left. now exists post.
      * right. injection H as _ H. now exists pre, post.
Qed.

Lemma str_in_empty (s : string) : str_in "" s = true.
Proof. destruct s; reflexivity. Qed.



(** ** The constructor *)

(** [Contact.__init__] never touches the state, and its result is decided by
    the earliest failing check. *)
Lemma Contact_init_eq (n p e : value) (st : State) :
  Contact_init n p e st =
  match first_failure (n, p, e) with
  | Some err => Raise (ValidationError err) st
  | None => Ok (mkContact n p e) st
  end.
Proof.
  unfold Contact_init, first_failure, bind, raise_if, raise, ret.
  destruct n as [| n | |]; try reflexivity;
  destruct p as [| p | |]; try reflexivity;
  destruct e as [| e | |]; try reflexivity;
  destruct n as [|a n]; try reflexivity;
  destruct p as [|b p]; try reflexivity;
  try (destruct e as [|c e]; try reflexivity);
  cbn; destruct (validate_email _); reflexivity.
Qed.

Lemma first_failure_valid (n p e : value) :
  first_failure (n, p, e) = None -> valid_contact (mkContact n p e).
Proof.
  unfold first_failure, valid_contact.
  destruct n as [| n | |]; try discriminate;
  destruct p as [| p | |]; try discriminate;
  destruct e as [| e | |]; try discriminate;
  destruct n as [|a n]; try discriminate;
  destruct p as [|b p]; try discriminate; cbn.
  - intros _. repeat split; eauto; eexists; (split; [reflexivity | discriminate]).
  - destruct e as [|c e]; cbn.
    + intros _. repeat split; eauto; eexists; (split; [reflexivity | discriminate]).
    + destruct (validate_email (String c e)) eqn:E; [intros _ | discriminate].
      split; [|split].
      * eexists; (split; [reflexivity | discriminate]).
      * eexists; (split; [reflexivity | discriminate]).
      * right; right. eauto.
Qed.

(** ** The dictionary *)

Section DictFacts.
Context {K V : Type} (eqb : K -> K -> bool).
Hypothesis eqb_spec : forall a b, eqb a b = true <-> a = b.

Lemma eqb_refl (a : K) : eqb a a = true.
Proof using Type eqb_spec. now apply eqb_spec. Qed.

Lemma eqb_neq (a b : K) : a <> b -> eqb a b = false.
Proof using Type eqb_spec.
  intros H. destruct (eqb a b) eqn:E; [|reflexivity].
  now apply eqb_spec in E.
Qed.

Lemma dict_get_some_key (k : K) (d : dict K V) (v : V) :
  dict_get eqb k d = Some v -> In k (dict_keys d).
Proof using Type eqb_spec.
  induction d as [|[k' v'] d IH]; simpl; [discriminate|].
  destruct (eqb k k') eqn:E.
  - apply eqb_spec in E. now left.
  - intros H. right. now apply IH.
Qed.

Lemma dict_get_of_key (k : K) (d : dict K V) :
  In k (dict_keys d) -> exists v, dict_get eqb k d = Some v.
Proof using Type eqb_spec.
  induction d as [|[k' v'] d IH]; simpl; [contradiction|].
  intros H. destruct (eqb k k') eqn:E; [now exists v'|].
  destruct H as [H|H]; [|now apply IH].
  subst. now rewrite eqb_refl in E.
Qed.

Lemma dict_get_some_value (k : K) (d : dict K V) (v : V) :
  dict_get eqb k d = Some v -> In v (map snd d).
Proof.
  induction d as [|[k' v'] d IH]; simpl; [discriminate|].
  destruct (eqb k k'); [intros H; injection H as ->; now left | right; now apply IH].
Qed.

Lemma dict_get_none (k : K) (d : dict K V) :
  ~ In k (dict_keys d) -> dict_get eqb k d = None.
Proof using Type eqb_spec.
  intros H. destruct (dict_get eqb k d) eqn:E; [|reflexivity].
  now apply dict_get_some_key in E.
Qed.

Lemma dict_get_in (k : K) (v : V) (d : dict K V) :
  NoDup (dict_keys d) -> In (k, v) d -> dict_get eqb k d = Some v.
Proof using Type eqb_spec.
  induction d as [|[k' v'] d IH]; simpl; [contradiction|].
  intros ND H. inversion ND as [|? ? Hk ND']; subst.
  destruct H as [H|H].
  - injection H as -> ->. now rewrite eqb_refl.
  - rewrite eqb_neq; [now apply IH|].
    intros ->. apply Hk. now apply (in_map fst) in H.
Qed.

(** Assigning keeps the keys when the key is present, and appends the entry
    when it is new. *)
Lemma dict_setitem_cases (k : K) (v : V) (d : dict K V) :
  (In k (dict_keys d) /\ dict_keys (dict_setitem eqb k v d) = dict_keys d)
  \/ (~ In k (dict_keys d) /\ dict_setitem eqb k v d = (d ++ [(k, v)])%list).
Proof using Type eqb_spec. clear lower path validate_email.
  induction d as [|[k' v'] d IH]; simpl.
  - right. split; [tauto | reflexivity].
  - destruct (eqb k k') eqn:E.
    + apply eqb_spec in E. subst. left. split; [now left | reflexivity].
    + assert (k' <> k) by (intros ->; now rewrite eqb_refl in E).
      destruct IH as [[Hin Hk] | [Hn Hd]].
      * left. split; [now right | simpl; now rewrite Hk].
      * right. split; [tauto | now rewrite Hd].
Qed.

Lemma dict_setitem_new (k : K) (v : V) (d : dict K V) :
  ~ In k (dict_keys d) -> dict_setitem eqb k v d = (d ++ [(k, v)])%list.
Proof using Type eqb_spec. clear lower path validate_email.
  intros H. destruct (dict_setitem_cases k v d) as [[Hin _] | [_ E]]; tauto.
Qed.

(** Deleting takes out exactly the first entry under the key. *)
Lemma dict_delitem_some (k : K) (d d' : dict K V) :
  dict_delitem eqb k d = Some d' ->
  exists l1 v l2, d = (l1 ++ (k, v) :: l2)%list /\ d' = (l1 ++ l2)%list
                  /\ ~ In k (dict_keys l1).
Proof using Type eqb_spec. clear lower path validate_email.
  revert d'. induction d as [|[k' v'] d IH]; simpl; intros d'; [discriminate|].
  destruct (eqb k k') eqn:E.
  - apply eqb_spec in E. subst. intros H. injection H as <-.
    exists [], v', d. simpl. tauto.
  - destruct (dict_delitem eqb k d) as [d''|]; [|discriminate].
    intros H. injection H as <-.
    destruct (IH d'' eq_refl) as (l1 & v & l2 & -> & -> & Hn).
    exists ((k', v') :: l1), v, l2. simpl. repeat split.
    intros [->|H]; [now rewrite eqb_refl in E | tauto].
Qed.

Lemma dict_delitem_none (k : K) (d : dict K V) :
  dict_delitem eqb k d = None <-> ~ In k (dict_keys d).
Proof using Type eqb_spec. clear lower path validate_email.
  induction d as [|[k' v'] d IH]; simpl; [tauto|].
  destruct (eqb k k') eqn:E.
  - apply eqb_spec in E. subst. split; [discriminate | tauto].
  - assert (k' <> k) by (intros ->; now rewrite eqb_refl in E).
    destruct (dict_delitem eqb k d) as [d''|].
    + split; [discriminate|]. intros Hn. exfalso.
      assert (Some d'' = None) by (apply IH; tauto). discriminate.
    + split; [|reflexivity]. intros _ [Hk|Hk]; [tauto|].
      revert Hk. now apply IH.
Qed.

Lemma dict_get_app (k : K) (l1 l2 : dict K V) :
  dict_get eqb k (l1 ++ l2)%list =
  match dict_get eqb k l1 with
  | Some v => Some v
  | None => dict_get eqb k l2
  end.
Proof.
  induction l1 as [|[k' v'] l1 IH]; simpl; [reflexivity|].
  now destruct (eqb k k').
Qed.

End DictFacts.

Lemma Z_eqb_spec (a b : Z) : Z.eqb a b = true <-> a = b.
Proof. apply Z.eqb_eq. Qed.


(** ** Relations between the state before and the state after *)

(** Neither [contacts] nor [next_id] differs. *)
Definition same_store (st st' : State) : Prop :=
  contacts st' = contacts st /\ next_id st' = next_id st.

(** Whatever [m] does, [R] relates the state it starts in to the state it
    ends or raises in. *)
Definition steps {A : Type} (R : State -> State -> Prop) (m : M A) : Prop :=
  forall st, R st (state_of (m st)).

Section Steps.
Variable R : State -> State -> Prop.
Hypothesis R_trans : forall a b c, R a b -> R b c -> R a c.
Hypothesis R_same : forall a b, same_store a b -> R a b.

Lemma R_refl (st : State) : R st st.
Proof using Type R_same. apply R_same. split; reflexivity. Qed.

Lemma steps_ret {A} (a : A) : steps R (ret a).
Proof using Type R_same. intros st. apply R_refl. Qed.

Lemma steps_raise {A} (e : exn) : steps R (@raise A e).
Proof using Type R_same. intros st. apply R_refl. Qed.

Lemma steps_bind {A B} (m : M A) (k : A -> M B) :
  steps R m -> (forall a, steps R (k a)) -> steps R (bind m k).
Proof using Type R_trans.
  intros Hm Hk st. unfold bind. specialize (Hm st).
  destruct (m st) as [a st'|e st']; simpl in *; [|exact Hm].
  eapply R_trans; [exact Hm | apply Hk].
Qed.

Lemma steps_raise_if (b : bool) (e : exn) : steps R (raise_if b e).
Proof using Type R_same. destruct b; [apply steps_raise | apply steps_ret]. Qed.

Lemma steps_for_each {A B} (body : A -> B -> M B) (l : list A) (acc : B) :
  (forall x acc, steps R (body x acc)) -> steps R (for_each body l acc).
Proof using Type R_same R_trans.
  intros Hb. revert acc. induction l as [|x l IH]; intros acc; simpl.
  - apply steps_ret.
  - apply steps_bind; [apply Hb | apply IH].
Qed.

Lemma steps_try_except_CVE {A} (body : M A)
  (handler : ContactValidationException -> M A) :
  steps R body -> (forall e, steps R (handler e)) ->
  steps R (try_except_CVE body handler).
Proof using Type R_trans.
  intros Hb Hh st. unfold try_except_CVE. specialize (Hb st).
  destruct (body st) as [a st'|[e| | | | | |] st']; simpl in *; try exact Hb.
  eapply R_trans; [exact Hb | apply Hh].
Qed.

Lemma steps_try_except_interrupt {A} (body handler : M A) :
  steps R body -> steps R handler -> steps R (try_except_interrupt body handler).
Proof using Type R_trans.
  intros Hb Hh st. unfold try_except_interrupt. specialize (Hb st).
  destruct (body st) as [a st'|[e| | | | | |] st']; simpl in *; try exact Hb.
  eapply R_trans; [exact Hb | apply Hh].
Qed.

Lemma steps_try_except_FileNotFound {A} (body handler : M A) :
  steps R body -> steps R handler -> steps R (try_except_FileNotFound body handler).
Proof using Type R_trans.
  intros Hb Hh st. unfold try_except_FileNotFound. specialize (Hb st).
  destruct (body st) as [a st'|[e| | | | | |] st']; simpl in *; try exact Hb.
  eapply R_trans; [exact Hb | apply Hh].
Qed.

Lemma steps_print (line : string) : steps R (print line).
Proof using Type R_same. intros st. apply R_same. split; reflexivity. Qed.

Lemma steps_contacts_getitem (idd : Z) : steps R (contacts_getitem idd).
Proof using Type R_same.
  intros st. unfold contacts_getitem.
  destruct (dict_get Z.eqb idd (contacts st)); apply R_refl.
Qed.

Lemma steps_get_contacts : steps R get_contacts.
Proof using Type R_same. intros st. apply R_refl. Qed.

Lemma steps_get_next_id : steps R get_next_id.
Proof using Type R_same. intros st. apply R_refl. Qed.

Lemma steps_py_len (v : value) : steps R (py_len v).
Proof using Type R_same. destruct v; first [apply steps_ret | apply steps_raise]. Qed.

Lemma steps_str_lower (v : value) : steps R (str_lower v).
Proof using Type R_same. destruct v; first [apply steps_ret | apply steps_raise]. Qed.

Lemma steps_call_validate_email (v : value) : steps R (call_validate_email v).
Proof using Type R_same. destruct v; first [apply steps_ret | apply steps_raise]. Qed.

Lemma steps_open_wt : steps R open_wt.
Proof using Type R_same. intros st. apply R_same. split; reflexivity. Qed.

Lemma steps_write_record (r : csv_record) : steps R (write_record r).
Proof using Type R_same.
  intros st. unfold write_record. destruct (file st); simpl;
    apply R_same; split; reflexivity.
Qed.

Lemma steps_open_rt : steps R open_rt.
Proof using Type R_same.
  intros st. unfold open_rt. destruct (file st); apply R_refl.
Qed.

Lemma steps_external (f : option csv_file) : steps R (external f).
Proof using Type R_same. intros st. apply R_same. split; reflexivity. Qed.

(** Goals [steps R m] for straight-line code, taken apart along [m]. *)
Ltac steps_tac :=
  repeat first
    [ apply steps_ret | apply steps_raise | apply steps_raise_if
    | apply steps_print | apply steps_contacts_getitem | apply steps_get_contacts
    | apply steps_get_next_id | apply steps_py_len | apply steps_str_lower
    | apply steps_call_validate_email | apply steps_open_wt
    | apply steps_write_record | apply steps_open_rt
    | assumption
    | match goal with H : context [steps] |- _ => apply H end
    | apply steps_bind; [|intros]
    | apply steps_for_each; intros
    | apply steps_try_except_CVE; [|intros]
    | apply steps_try_except_interrupt
    | apply steps_try_except_FileNotFound
    | match goal with
      | |- steps _ (if ?b then _ else _) => destruct b
      | |- steps _ (match ?x with _ => _ end) => destruct x
      end ].

Lemma steps_not_None_and_nonempty (v : value) :
  steps R (not_None_and_nonempty v).
Proof using Type R_same R_trans. unfold not_None_and_nonempty. steps_tac. Qed.

Lemma steps_Contact_init (n p e : value) : steps R (Contact_init n p e).
Proof using Type R_same.
  intros st. rewrite Contact_init_eq.
  destruct (first_failure (n, p, e)); apply R_refl.
Qed.

Lemma steps_Contact_str (c : Contact) : steps R (Contact_str c).
Proof using Type R_same R_trans.
  unfold Contact_str. apply steps_bind; [apply steps_not_None_and_nonempty|].
  intros; apply steps_ret.
Qed.

Lemma steps_listt (ids : list Z) : steps R (listt ids).
Proof using Type R_same R_trans.
  unfold listt. apply steps_for_each. intros.
  apply steps_bind; [apply steps_contacts_getitem|]. intros.
  apply steps_bind; [apply steps_Contact_str|]. intros. apply steps_print.
Qed.

Lemma steps_query_body (q : string) (idd : Z) (ids : list Z) :
  steps R (query_body q idd ids).
Proof using Type R_same R_trans. unfold query_body. steps_tac. Qed.

Lemma steps_query (q : value) : steps R (query q).
Proof using Type R_same R_trans.
  unfold query. apply steps_bind; [apply steps_str_lower|]. intros.
  apply steps_bind; [apply steps_get_contacts|]. intros.
  apply steps_for_each. intros. apply steps_query_body.
Qed.

Lemma steps_action_list : steps R action_list.
Proof using Type R_same R_trans.
  unfold action_list. apply steps_bind; [apply steps_get_contacts|]. intros d.
  apply steps_bind; [|intros; apply steps_print].
  destruct (_ =? 0); [apply steps_print | apply steps_listt].
Qed.

Lemma steps_action_search (q : value) : steps R (action_search q).
Proof using Type R_same R_trans.
  unfold action_search.
  apply steps_bind; [apply steps_print|]. intros _.
  apply steps_bind; [apply steps_not_None_and_nonempty|]. intros b.
  apply steps_bind; [|intros; apply steps_print].
  destruct b; [|apply steps_print].
  apply steps_bind; [apply steps_query|]. intros ids.
  destruct (0 <? _); [apply steps_listt | apply steps_print].
Qed.

Lemma steps_action_export : steps R action_export.
Proof using Type R_same R_trans. unfold action_export. steps_tac. Qed.

Lemma steps_action_create (n p e : value) :
  steps R (create n p e) -> steps R (action_create n p e).
Proof using Type R_same R_trans. intros H. unfold action_create. steps_tac. Qed.

Lemma steps_import_body (i : nat) (row : dict string (option string))
  (acc : Z * bool) :
  (forall n p e, steps R (create n p e)) -> steps R (import_body i row acc).
Proof using Type R_same R_trans. intros H. unfold import_body. steps_tac. Qed.

Lemma steps_import_loop (fieldnames : csv_record) (records : list csv_record) :
  (forall n p e, steps R (create n p e)) ->
  forall i acc, steps R (import_loop fieldnames records i acc).
Proof using Type R_same R_trans.
  intros H. induction records as [|r rest IH]; intros i acc; simpl.
  - apply steps_ret.
  - destruct (negb (readable r)); [apply steps_raise|].
    destruct (is_blank r); [apply IH|].
    apply steps_bind; [now apply steps_import_body | intros; apply IH].
Qed.

Lemma steps_action_import :
  (forall n p e, steps R (create n p e)) -> steps R action_import.
Proof using Type R_same R_trans.
  intros H. unfold action_import, import_rows.
  apply steps_try_except_FileNotFound; [|steps_tac].
  apply steps_bind.
  - apply steps_bind; [apply steps_open_rt|]. intros [|fieldnames records].
    + apply steps_ret.
    + destruct (negb (readable fieldnames)); [apply steps_raise|].
      now apply steps_import_loop.
  - intros. steps_tac.
Qed.

Lemma steps_action_delete (q : value) (pick : nat) (y : option bool) :
  (forall idd, steps R (contacts_delitem idd)) ->
  steps R (action_delete q pick y).
Proof using Type R_same R_trans.
  intros H. unfold action_delete.
  apply steps_bind; [apply steps_print|]. intros _.
  apply steps_bind; [apply steps_not_None_and_nonempty|]. intros b.
  apply steps_bind; [|intros; apply steps_print].
  destruct b; [|apply steps_print].
  apply steps_bind; [apply steps_query|]. intros ids.
  apply steps_bind.
  - destruct (_ =? 1).
    + destruct ids; [apply steps_ret|].
      apply steps_bind; [apply steps_contacts_getitem|]. intros.
      apply steps_bind; [apply steps_Contact_str|]. intros. steps_tac.
    + destruct (0 <? _); [|apply steps_ret].
      apply steps_bind.
      * apply steps_for_each. intros.
        apply steps_bind; [apply steps_contacts_getitem|]. intros.
        apply steps_bind; [apply steps_Contact_str|]. intros. apply steps_ret.
      * intros. destruct (nth_error ids pick); [apply steps_ret | apply steps_raise].
  - intros [idd|]; [|apply steps_print].
    apply steps_bind; [destruct y; steps_tac|]. intros [|]; [|apply steps_print].
    apply steps_bind; [apply H | intros; apply steps_print].
Qed.

Lemma steps_run_action (a : action) :
  (forall n p e, steps R (create n p e)) ->
  (forall idd, steps R (contacts_delitem idd)) ->
  steps R (run_action a).
Proof using Type R_same R_trans.
  intros Hc Hd. destruct a; simpl.
  - apply steps_action_list.
  - apply steps_action_search.
  - now apply steps_action_create.
  - now apply steps_action_delete.
  - apply steps_action_export.
  - now apply steps_action_import.
Qed.

Lemma steps_session (evs : list event) :
  (forall n p e, steps R (create n p e)) ->
  (forall idd, steps R (contacts_delitem idd)) ->
  steps R (session evs).
Proof using Type R_same R_trans.
  intros Hc Hd. induction evs as [|ev evs IH]; simpl.
  - apply steps_ret.
  - apply steps_bind; [|intros; exact IH].
    destruct ev as [a|f]; simpl; [|apply steps_external].
    unfold menu_turn. apply steps_try_except_interrupt.
    + now apply steps_run_action.
    + steps_tac.
Qed.

End Steps.

(** ** Creation, deletion and the invariant *)

Lemma create_eq (n p e : value) (st : State) :
  create n p e st =
  match first_failure (n, p, e) with
  | Some err => Raise (ValidationError err) st
  | None =>
      Ok tt (mkState (dict_setitem Z.eqb (next_id st) (mkContact n p e) (contacts st))
                     (next_id st + 1) (stdout st) (file st))
  end.
Proof.
  unfold create, bind. rewrite Contact_init_eq.
  destruct (first_failure (n, p, e)); reflexivity.
Qed.

Lemma fresh_next_id (st : State) :
  invariant st -> ~ In (next_id st) (dict_keys (contacts st)).
Proof. intros (_ & _ & Hk & _) Hin. apply Hk in Hin. lia. Qed.

Lemma grows_trans (a b c : State) : grows a b -> grows b c -> grows a c.
Proof.
  intros Hab Hbc Ia. destruct (Hab Ia) as (Ib & Lab & Gab).
  destruct (Hbc Ib) as (Ic & Lbc & Gbc). split; [exact Ic|]. split; [lia|].
  intros k v Hg Hlt. apply Gab; [|exact Hlt]. apply Gbc; [exact Hg | lia].
Qed.

Lemma grows_same (a b : State) : same_store a b -> grows a b.
Proof.
  intros [Hc Hn] Ia. unfold invariant. rewrite Hc, Hn.
  split; [exact Ia|]. split; [lia|]. intros k c Hg _. exact Hg.
Qed.

Lemma grows_create (n p e : value) : steps grows (create n p e).
Proof. clear lower path.
  intros st. rewrite create_eq.
  destruct (first_failure (n, p, e)) eqn:F; simpl.
  - apply grows_same. split; reflexivity.
  - intros Ia. pose proof (fresh_next_id st Ia) as Hfresh.
    destruct Ia as (Hv & H0 & Hk & Hnd). unfold invariant; simpl.
    rewrite (dict_setitem_new Z.eqb Z_eqb_spec _ _ _ Hfresh).
    unfold dict_keys. rewrite !map_app. simpl.
    repeat split.
    + apply Forall_app. split; [exact Hv|].
      constructor; [now apply first_failure_valid | constructor].
    + lia.
    + apply in_app_or in H. destruct H as [H|[<-|[]]]; [apply Hk in H|]; lia.
    + apply in_app_or in H. destruct H as [H|[<-|[]]]; [apply Hk in H|]; lia.
    + apply NoDup_app; [exact Hnd | repeat constructor; simpl; tauto |].
      intros a Ha [<-|[]]. now apply Hfresh.
    + lia.
    + intros k c Hg Hlt. rewrite dict_get_app in Hg.
      destruct (dict_get Z.eqb k (contacts st)); [exact Hg|].
      simpl in Hg. destruct (Z.eqb_spec k (next_id st)); [lia | discriminate].
Qed.

Lemma grows_delitem (idd : Z) : steps grows (contacts_delitem idd).
Proof. clear lower path.
  intros st. unfold contacts_delitem.
  destruct (dict_delitem Z.eqb idd (contacts st)) as [d'|] eqn:D; simpl.
  2:{ apply grows_same. split; reflexivity. }
  destruct (dict_delitem_some Z.eqb Z_eqb_spec _ _ _ D) as (l1 & v & l2 & E & -> & Hn).
  intros (Hv & H0 & Hk & Hnd). unfold invariant; simpl. rewrite E in *.
  unfold dict_keys in *. rewrite !map_app in *. simpl in *.
  repeat split.
  - apply Forall_app in Hv. destruct Hv as [H1 H2]. inversion H2; subst.
    apply Forall_app. tauto.
  - exact H0.
  - apply Hk. apply in_app_or in H. apply in_or_app. simpl. tauto.
  - apply Hk. apply in_app_or in H. apply in_or_app. simpl. tauto.
  - now apply NoDup_remove_1 in Hnd.
  - lia.
  - intros k c Hg _. rewrite dict_get_app in *.
    destruct (dict_get Z.eqb k l1); [exact Hg|]. simpl.
    destruct (Z.eqb_spec k idd) as [->|]; [|exact Hg].
    apply NoDup_remove_2 in Hnd. exfalso. apply Hnd.
    apply in_or_app. right. eapply dict_get_some_key; [apply Z_eqb_spec | exact Hg].
Qed.

Lemma grows_session (evs : list event) : steps grows (session evs).
Proof.
  apply steps_session.
  - exact grows_trans.
  - exact grows_same.
  - exact grows_create.
  - exact grows_delitem.
Qed.

Lemma invariant_initial (f : option csv_file) : invariant (initial f).
Proof.
  unfold invariant; simpl. repeat split; try lia; try contradiction; constructor.
Qed.

Lemma invariant_session (evs : list event) (st : State) :
  invariant st -> invariant (state_of (session evs st)).
Proof. intros I. now apply (grows_session evs st). Qed.

Lemma invariant_reachable (evs : list event) (f : option csv_file) :
  invariant (state_of (session evs (initial f))).
Proof. apply invariant_session, invariant_initial. Qed.

(** ** The loop of [query] *)

Lemma dict_get_valid (st : State) (k : Z) (c : Contact) :
  Forall valid_contact (map snd (contacts st)) ->
  dict_get Z.eqb k (contacts st) = Some c -> valid_contact c.
Proof.
  intros Hv G. rewrite Forall_forall in Hv. apply Hv.
  now apply (dict_get_some_value Z.eqb k).
Qed.

Lemma valid_query_body (q : string) (idd : Z) (ids : list Z) (st : State) (c : Contact) :
  dict_get Z.eqb idd (contacts st) = Some c -> valid_contact c ->
  query_body q idd ids st
  = Ok (if query_test q c then ids ++ [idd] else ids)%list st.
Proof.
  intros G ((n & Hn & _) & (p & Hp & _) & He).
  unfold query_body, contacts_getitem, bind, query_test. rewrite G, Hn, Hp. simpl.
  destruct (str_in q (lower n)); [reflexivity|]. simpl.
  destruct (str_in q (lower p)); [reflexivity|]. simpl.
  destruct He as [-> | [-> | (e & -> & _)]]; simpl; try reflexivity.
  - destruct (str_in q (lower "")); reflexivity.
  - destruct (str_in q (lower e)); reflexivity.
Qed.

Lemma query_loop_eq (q : string) (st : State) (keys : list Z) :
  Forall valid_contact (map snd (contacts st)) ->
  (forall k, In k keys -> In k (dict_keys (contacts st))) ->
  forall ids,
  for_each (query_body q) keys ids st
  = Ok (ids ++ filter (fun k => match dict_get Z.eqb k (contacts st) with
                                | Some c => query_test q c
                                | None => false
                                end) keys)%list st.
Proof.
  intros Hv. induction keys as [|k keys IH]; intros Hk ids; simpl.
  - unfold ret. now rewrite app_nil_r.
  - destruct (dict_get_of_key Z.eqb Z_eqb_spec k (contacts st)) as [c G];
      [apply Hk; now left|].
    assert (valid_contact c) as Hc by (eapply dict_get_valid; eassumption).
    unfold bind at 1. rewrite (valid_query_body q k ids st c G Hc), G.
    rewrite IH by (intros; apply Hk; now right).
    destruct (query_test q c); [now rewrite <- app_assoc | reflexivity].
Qed.

Lemma query_eq (q : string) (st : State) :
  Forall valid_contact (map snd (contacts st)) ->
  query (VStr q) st
  = Ok (filter (fun k => match dict_get Z.eqb k (contacts st) with
                         | Some c => query_test (lower q) c
                         | None => false
                         end) (dict_keys (contacts st))) st.
Proof.
  intros Hv. unfold query, bind; simpl.
  now rewrite (query_loop_eq (lower q) st (dict_keys (contacts st)) Hv).
Qed.

Lemma query_test_matches (q : string) (c : Contact) :
  valid_contact c -> (query_test (lower q) c = true <-> matches q c).
Proof. clear path.
  intros ((n & Hn & _) & (p & Hp & _) & He).
  unfold query_test, matches, field_matches. rewrite Hn, Hp.
  rewrite !orb_true_iff, !str_in_spec. split.
  - intros [[H|H]|H]; [left; eauto | right; left; eauto |].
    right; right. destruct (email c); try discriminate.
    apply str_in_spec in H. eauto.
  - intros [(s & E & H) | [(s & E & H) | (s & E & H)]].
    + injection E as <-. tauto.
    + injection E as <-. tauto.
    + right. rewrite E. now apply str_in_spec.
Qed.

Lemma subseq_filter {A : Type} (f : A -> bool) (l : list A) : subseq (filter f l) l.
Proof.
  induction l as [|x l IH]; simpl; [constructor|].
  destruct (f x); now constructor.
Qed.


(** ** The loop of [action_import] *)

Lemma import_body_eq (i : nat) (row : dict string (option string))
  (acc : Z * bool) (st : State) :
  import_body i row acc st =
  match row_result row with
  | inl e =>
      Ok (fst acc, true)
         (mkState (contacts st) (next_id st)
            (stdout st ++ ["❌ Error in row " ++ str_of_nat i ++ " (skipping): "
                           ++ CVE_str e ++ " 🤔."])
            (file st))
  | inr c =>
      Ok (fst acc + 1, snd acc)
         (mkState (dict_setitem Z.eqb (next_id st) c (contacts st))
            (next_id st + 1) (stdout st) (file st))
  end.
Proof.
  unfold import_body, row_result, try_except_CVE, bind.
  destruct (is_None (row_get "name" row)); [reflexivity|].
  destruct (is_None (row_get "phone" row)); [reflexivity|].
  simpl. rewrite create_eq.
  destruct (first_failure _); reflexivity.
Qed.

Lemma keys_numbered_ge (i : Z) (cs : list Contact) (k : Z) :
  In k (dict_keys (numbered i cs)) -> i <= k < i + Z.of_nat (length cs).
Proof.
  revert i. induction cs as [|c cs IH]; intros i; simpl; [contradiction|].
  intros [<-|H]; [lia|]. apply IH in H. lia.
Qed.

Lemma after_rows_nil (st : State) (i : nat) : after_rows st i [] = st.
Proof.
  unfold after_rows. simpl. rewrite !app_nil_r, Z.add_0_r. now destruct st.
Qed.

Lemma after_rows_skipped (st : State) (i : nat)
  (row : dict string (option string)) (e : ContactValidationException)
  (rows : list (dict string (option string))) :
  row_result row = inl e ->
  after_rows (mkState (contacts st) (next_id st)
                (stdout st ++ ["❌ Error in row " ++ str_of_nat i ++ " (skipping): "
                               ++ CVE_str e ++ " 🤔."])
                (file st)) (S i) rows
  = after_rows st i (row :: rows).
Proof.
  intros E. unfold after_rows. simpl. rewrite E. simpl. now rewrite <- app_assoc.
Qed.

Lemma after_rows_imported (st : State) (i : nat)
  (row : dict string (option string)) (c : Contact)
  (rows : list (dict string (option string))) :
  row_result row = inr c ->
  (forall k, In k (dict_keys (contacts st)) -> k < next_id st) ->
  after_rows (mkState (dict_setitem Z.eqb (next_id st) c (contacts st))
                (next_id st + 1) (stdout st) (file st)) (S i) rows
  = after_rows st i (row :: rows)
  /\ (forall k,
        In k (dict_keys (dict_setitem Z.eqb (next_id st) c (contacts st))) ->
        k < next_id st + 1).
Proof.
  intros E Hk.
  rewrite dict_setitem_new by (apply Z_eqb_spec || (intros H; apply Hk in H; lia)).
  split.
  - unfold after_rows. simpl. rewrite E. simpl. rewrite <- app_assoc. simpl.
    assert (Z.pos (Pos.of_succ_nat (length (imported rows)))
            = 1 + Z.of_nat (length (imported rows))) as E' by lia.
    now rewrite E', !Z.add_assoc.
  - unfold dict_keys in *. rewrite map_app. intros k H.
    apply in_app_or in H. simpl in H.
    destruct H as [H|[<-|[]]]; [apply Hk in H|]; lia.
Qed.

(** The loop over the records: it goes through the rows of the records
    before the first one that cannot be parsed, and returns when there is no
    such record, and raises [_csv.Error] when there is one. *)
Lemma import_loop_eq (fieldnames : csv_record) (records : list csv_record) :
  forall (i : nat) (acc : Z * bool) (st : State),
  (forall k, In k (dict_keys (contacts st)) -> k < next_id st) ->
  import_loop fieldnames records i acc st =
  if forallb readable records
  then Ok (fst acc
           + Z.of_nat (length (imported (DictReader
                                           (fieldnames :: readable_prefix records)))),
           snd acc || any_skipped (DictReader (fieldnames :: readable_prefix records)))
          (after_rows st i (DictReader (fieldnames :: readable_prefix records)))
  else Raise csv_Error
         (after_rows st i (DictReader (fieldnames :: readable_prefix records))).
Proof.
  induction records as [|r rest IH]; intros i acc st Hk.
  - simpl. unfold ret. rewrite after_rows_nil, orb_false_r, Z.add_0_r.
    now destruct acc.
  - cbn [import_loop forallb readable_prefix].
    destruct (readable r) eqn:Hr; cbn [negb andb].
    2:{ unfold raise. cbn [DictReader filter map]. now rewrite after_rows_nil. }
    destruct (is_blank r) eqn:B.
    + rewrite IH by exact Hk. cbn [DictReader filter]. now rewrite B.
    + unfold bind. rewrite import_body_eq.
      cbn [DictReader filter map]. rewrite B. cbn [negb map].
      cbn [DictReader] in IH.
      destruct (row_result (zip_row fieldnames r [])) as [e|c] eqn:RR.
      * rewrite IH by exact Hk. rewrite (after_rows_skipped st i _ e _ RR).
        unfold any_skipped. cbn [imported existsb fst snd]. rewrite RR.
        now rewrite orb_true_r.
      * destruct (after_rows_imported st i _ c
                    (map (fun r0 => zip_row fieldnames r0 [])
                       (filter (fun r0 => negb (is_blank r0)) (readable_prefix rest)))
                    RR Hk) as [E Hk'].
        rewrite IH by exact Hk'. rewrite E.
        unfold any_skipped. cbn [imported existsb fst snd length]. rewrite RR.
        cbn [orb length].
        assert (forall n : nat, fst acc + 1 + Z.of_nat n = fst acc + Z.of_nat (S n))
          as -> by (intros; lia).
        reflexivity.
Qed.

Lemma rows_read_all (f : csv_file) :
  all_readable f = true -> rows_read f = DictReader f.
Proof.
  destruct f as [|h records]; [reflexivity|]. unfold all_readable, rows_read.
  cbn [forallb]. intros H. apply andb_true_iff in H. destruct H as [-> H].
  f_equal. f_equal. induction records as [|r rest IH]; [reflexivity|].
  cbn [forallb] in H. apply andb_true_iff in H. destruct H as [Hr H].
  cbn [readable_prefix]. rewrite Hr. now rewrite IH.
Qed.

(** The loop of an import on any file: it goes through the rows the reader
    gets to read, and returns when the reader could read the whole file, and
    raises [_csv.Error] otherwise. *)
Lemma import_rows_gen (st : State) (f : csv_file) :
  file st = Some f ->
  (forall k, In k (dict_keys (contacts st)) -> k < next_id st) ->
  import_rows st =
  if all_readable f
  then Ok (Z.of_nat (length (imported (rows_read f))), any_skipped (rows_read f))
          (after_rows st 0 (rows_read f))
  else Raise csv_Error (after_rows st 0 (rows_read f)).
Proof.
  intros Hf Hk. unfold import_rows, bind, open_rt. rewrite Hf.
  destruct f as [|h records].
  - unfold ret. cbn. now rewrite after_rows_nil.
  - unfold all_readable, rows_read. cbn [forallb].
    destruct (readable h); cbn [negb andb].
    + now rewrite import_loop_eq by exact Hk.
    + unfold raise. now rewrite after_rows_nil.
Qed.

Lemma import_rows_eq (st : State) (f : csv_file) :
  file st = Some f ->
  all_readable f = true ->
  (forall k, In k (dict_keys (contacts st)) -> k < next_id st) ->
  import_rows st =
  Ok (Z.of_nat (length (imported (DictReader f))), any_skipped (DictReader f))
     (mkState (contacts st ++ numbered (next_id st) (imported (DictReader f)))%list
        (next_id st + Z.of_nat (length (imported (DictReader f))))
        (stdout st ++ skipped_lines 0 (DictReader f)) (Some f)).
Proof.
  intros Hf Hr Hk. rewrite (import_rows_gen st f Hf Hk), Hr.
  rewrite (rows_read_all f Hr). unfold after_rows. now rewrite Hf.
Qed.

Lemma action_import_eq (st : State) (f : csv_file) :
  file st = Some f ->
  all_readable f = true ->
  (forall k, In k (dict_keys (contacts st)) -> k < next_id st) ->
  action_import st =
  Ok tt
     (mkState (contacts st ++ numbered (next_id st) (imported (DictReader f)))%list
        (next_id st + Z.of_nat (length (imported (DictReader f))))
        (stdout st ++ skipped_lines 0 (DictReader f)
         ++ import_report (Z.of_nat (length (imported (DictReader f))))
                          (any_skipped (DictReader f)))
        (Some f)).
Proof.
  intros Hf Hr Hk. unfold action_import, try_except_FileNotFound, bind at 1.
  rewrite (import_rows_eq st f Hf Hr Hk). unfold import_report. simpl fst; simpl snd.
  set (n := Z.of_nat (length (imported (DictReader f)))).
  assert ((0 <? n) = false -> (n =? 0) = true) as Hn
    by (intros P; apply Z.ltb_ge in P; apply Z.eqb_eq; lia).
  destruct (any_skipped (DictReader f)); destruct (0 <? n) eqn:P;
    try rewrite (Hn eq_refl);
    unfold bind, print, ret; cbn; rewrite <- ?app_assoc; reflexivity.
Qed.

(** An import of a file with a record that cannot be parsed ends in the
    [_csv.Error] of the reader, which [action_import] does not catch: the
    rows before that record are through, nothing after it, and no report is
    printed. *)
Lemma action_import_raise (st : State) (f : csv_file) :
  file st = Some f ->
  all_readable f = false ->
  (forall k, In k (dict_keys (contacts st)) -> k < next_id st) ->
  action_import st = Raise csv_Error (after_rows st 0 (rows_read f)).
Proof.
  intros Hf Hr Hk. unfold action_import, try_except_FileNotFound, bind at 1.
  now rewrite (import_rows_gen st f Hf Hk), Hr.
Qed.

Lemma action_import_no_file (st : State) :
  file st = None -> same_store st (state_of (action_import st)).
Proof.
  intros Hf. unfold action_import, try_except_FileNotFound, bind at 1.
  unfold import_rows, bind at 1, open_rt. rewrite Hf.
  split; reflexivity.
Qed.

(** ** The loop of [action_export] *)

Lemma export_loop_eq (l : dict Z Contact) :
  forall (st : State) (f0 : csv_file),
  file st = Some f0 ->
  (forall k c, In (k, c) l -> dict_get Z.eqb k (contacts st) = Some c) ->
  for_each (fun idd (_ : unit) =>
              contact <- contacts_getitem idd ;;
              write_record (DictWriter_row contact)) (dict_keys l) tt st
  = Ok tt (mkState (contacts st) (next_id st) (stdout st)
             (Some (f0 ++ map DictWriter_row (map snd l))%list)).
Proof.
  induction l as [|[k c] l IH]; intros st f0 Hf Hg; simpl.
  - unfold ret. rewrite app_nil_r. destruct st; simpl in *. now rewrite Hf.
  - unfold bind at 1. unfold bind at 1. unfold contacts_getitem at 1.
    rewrite (Hg k c) by now left. unfold write_record at 1. rewrite Hf.
    rewrite (IH _ (f0 ++ [DictWriter_row c])%list); simpl.
    + now rewrite <- app_assoc.
    + reflexivity.
    + intros. apply Hg. now right.
Qed.

Lemma action_export_eq (st : State) :
  NoDup (dict_keys (contacts st)) ->
  action_export st =
  Ok tt (mkState (contacts st) (next_id st)
           (stdout st ++ export_report (contacts st))
           (Some (exported_file (contacts st)))).
Proof.
  intros Hnd. unfold action_export.
  unfold bind at 1. unfold open_wt at 1.
  unfold bind at 1. unfold write_record at 1. simpl file.
  unfold bind at 1. unfold get_contacts at 1. simpl contacts.
  unfold bind at 1.
  rewrite (export_loop_eq (contacts st) _ [DictWriter_header]); simpl.
  - unfold bind, get_contacts, print, export_report; simpl.
    destruct (contacts st); simpl; now rewrite <- app_assoc.
  - reflexivity.
  - intros k c H. now apply dict_get_in; [apply Z_eqb_spec| |].
Qed.

(** ** Reading back what was exported *)

Lemma DictReader_exported (d : dict Z Contact) :
  DictReader (exported_file d)
  = map (fun c => zip_row DictWriter_header (DictWriter_row c) []) (map snd d).
Proof.
  unfold exported_file, DictReader.
  induction (map snd d) as [|c cs IH]; simpl; [reflexivity | now f_equal].
Qed.

Lemma row_result_exported (c : Contact) :
  valid_contact c ->
  row_result (zip_row DictWriter_header (DictWriter_row c) []) = inr (through_csv c).
Proof.
  intros ((n & Hn & Hn0) & (p & Hp & Hp0) & He).
  unfold row_result, through_csv, first_failure.
  destruct c as [cn cp ce]; simpl in *; subst.
  destruct n as [|a n]; [congruence|]. destruct p as [|b p]; [congruence|].
  destruct He as [-> | [-> | (e & -> & Hv)]]; cbn; try reflexivity.
  destruct e as [|x e]; [reflexivity|]. cbn. now rewrite Hv.
Qed.

Lemma imported_exported (cs : list Contact) :
  Forall valid_contact cs ->
  imported (map (fun c => zip_row DictWriter_header (DictWriter_row c) []) cs)
  = map through_csv cs
  /\ any_skipped (map (fun c => zip_row DictWriter_header (DictWriter_row c) []) cs)
     = false
  /\ forall i,
     skipped_lines i (map (fun c => zip_row DictWriter_header (DictWriter_row c) []) cs)
     = [].
Proof.
  induction 1 as [|c cs Hc Hcs IH]; [repeat split|].
  destruct IH as (I1 & I2 & I3). unfold any_skipped in *.
  cbn [map imported existsb skipped_lines].
  rewrite (row_result_exported c Hc), I1, I2. repeat split. intros; apply I3.
Qed.

(** The reader can read what the writer wrote when every cell fits. *)
Lemma exported_readable (d : dict Z Contact) :
  Forall fits (map snd d) -> all_readable (exported_file d) = true.
Proof.
  unfold all_readable, exported_file. cbn [forallb].
  replace (readable DictWriter_header) with true by (vm_compute; reflexivity).
  cbn [andb]. induction 1 as [|c cs Hc Hcs IH]; [reflexivity|].
  cbn [map forallb]. now rewrite Hc, IH.
Qed.

(** ** Lists *)

Lemma find_first {A : Type} (f : A -> bool) (l : list A) (i : nat) (c : A) :
  nth_error l i = Some c -> f c = true ->
  (forall j c', (j < i)%nat -> nth_error l j = Some c' -> f c' = false) ->
  find f l = Some c.
Proof.
  revert i. induction l as [|x l IH]; intros [|i] Hn Hc Hlt; simpl in *;
    try discriminate.
  - injection Hn as ->. now rewrite Hc.
  - rewrite (Hlt 0%nat x) by (reflexivity || lia).
    apply (IH i Hn Hc). intros j c' Hj. apply (Hlt (S j)). lia.
Qed.

Lemma find_all_false {A : Type} (f : A -> bool) (l : list A) :
  (forall c, In c l -> f c = false) -> find f l = None.
Proof.
  induction l as [|x l IH]; intros H; simpl; [reflexivity|].
  rewrite (H x) by now left. apply IH. intros; apply H. now right.
Qed.

(** ** The claims *)

(** C1. [Contact.__init__] makes its checks in the order type-check name,
    type-check phone, type-check email, empty-check name, empty-check phone,
    syntax-check email: when the check at position [i] fails and every check
    before it passes, the one error raised is the error of check [i], raised
    in the state the constructor was called in; when no check fails the
    contact is built.  The six errors are pairwise different, so the error
    tells which check failed. *)
Theorem Contact_init_check_order (n p e : value) (st : State) :
  (forall i chk err,
      nth_error checks i = Some (chk, err) ->
      chk (n, p, e) = true ->
      (forall j chk' err', (j < i)%nat ->
         nth_error checks j = Some (chk', err') -> chk' (n, p, e) = false) ->
      Contact_init n p e st = Raise (ValidationError err) st)
  /\ ((forall chk err, In (chk, err) checks -> chk (n, p, e) = false) ->
      Contact_init n p e st = Ok (mkContact n p e) st)
  /\ map snd checks = [not_str_name; not_str_phone; not_str_email;
                       empty_name; empty_phone; malformed_email]
  /\ NoDup (map snd checks).
Proof. clear lower path.
  split; [|split; [|split]].
  - intros i chk err Hn Hc Hlt. rewrite Contact_init_eq. unfold first_failure.
    rewrite (find_first (fun c : check => fst c (n, p, e)) checks i (chk, err));
      [reflexivity | exact Hn | exact Hc |].
    intros j [chk' err'] Hj Hn'. simpl. now apply (Hlt j chk' err').
  - intros H. rewrite Contact_init_eq. unfold first_failure.
    rewrite find_all_false; [reflexivity|].
    intros [chk err] Hin. simpl. now apply (H chk err).
  - reflexivity.
  - simpl. repeat constructor; simpl; intuition discriminate.
Qed.

(** C2. A contact that [Contact.__init__] returns has a non-empty text as
    name and as phone, and an email that is [None], the empty text, or a
    text [validate_email] accepts; and whatever the session, every contact
    in the store is such a contact. *)
Theorem contact_invariant :
  (forall n p e st c st',
      Contact_init n p e st = Ok c st' -> valid_contact c)
  /\ (forall evs f,
      Forall valid_contact
        (map snd (contacts (state_of (session evs (initial f)))))).
Proof.
  split.
  - intros n p e st c st'. rewrite Contact_init_eq.
    destruct (first_failure (n, p, e)) eqn:F; [discriminate|].
    intros H. injection H as <- _. now apply first_failure_valid.
  - intros evs f. apply (invariant_reachable evs f).
Qed.

(** C3. On a store that satisfies the invariant, [query(q)] returns, and the
    ids it returns are exactly the ids of the contacts for which the
    lower-cased [q] is a substring of the lower-cased name, phone, or email
    when the email is a text; they come in the order of the store, each
    once.  (This holds of every [q], the non-empty ones among them.) *)
Theorem query_sound_complete (q : string) (st : State) :
  invariant st ->
  exists ids,
    query (VStr q) st = Ok ids st
    /\ (forall id, In id ids <->
                   exists c, dict_get Z.eqb id (contacts st) = Some c /\ matches q c)
    /\ subseq ids (dict_keys (contacts st))
    /\ NoDup ids.
Proof.
  intros (Hv & _ & _ & Hnd). eexists. split; [apply (query_eq q st Hv)|].
  split; [|split].
  - intros id. rewrite filter_In. split.
    + intros [Hin Ht].
      destruct (dict_get Z.eqb id (contacts st)) as [c|] eqn:G; [|discriminate].
      exists c. split; [reflexivity|].
      apply query_test_matches; [eapply dict_get_valid; eassumption | exact Ht].
    + intros (c & G & Hm). split.
      * eapply dict_get_some_key; [apply Z_eqb_spec | exact G].
      * rewrite G. apply query_test_matches;
          [eapply dict_get_valid; eassumption | exact Hm].
  - apply subseq_filter.
  - now apply NoDup_filter.
Qed.

(** C5. When validation fails on a triple, the body of [create] raises that
    same validation error in the very state it started in, so that
    [action_create] leaves [contacts] and [next_id] as they were; and a row
    of an import that is rejected leaves them as they were, too, the loop
    going on with the flag set. *)
Theorem create_failure_no_mutation (n p e : value) (st : State)
  (ex : exn) (st1 : State) :
  Contact_init n p e st = Raise ex st1 ->
  (exists err, ex = ValidationError err)
  /\ st1 = st
  /\ create n p e st = Raise ex st
  /\ contacts (state_of (action_create n p e st)) = contacts st
  /\ next_id (state_of (action_create n p e st)) = next_id st
  /\ (forall i row acc err,
        row_result row = inl err ->
        exists st', import_body i row acc st = Ok (fst acc, true) st'
                    /\ contacts st' = contacts st
                    /\ next_id st' = next_id st).
Proof.
  intros H. rewrite Contact_init_eq in H.
  destruct (first_failure (n, p, e)) as [err|] eqn:F; [|discriminate].
  injection H as <- <-.
  split; [now exists err|]. split; [reflexivity|].
  split; [now rewrite create_eq, F|].
  unfold action_create, bind, try_except_CVE, print. simpl.
  rewrite create_eq, F. simpl. split; [reflexivity|]. split; [reflexivity|].
  intros i row acc err' Hr. rewrite import_body_eq, Hr.
  eexists. split; [reflexivity|]. split; reflexivity.
Qed.

(** C9. Called with the empty text, [query] returns the ids of all stored
    contacts in the order of the store (on a store that satisfies the
    invariant, and [str.lower] mapping the empty text to itself). *)
Theorem query_empty_returns_all (st : State) :
  invariant st -> lower "" = "" ->
  query (VStr "") st = Ok (dict_keys (contacts st)) st.
Proof.
  intros (Hv & _) Hl. rewrite (query_eq "" st Hv). f_equal.
  rewrite Hl. apply forallb_filter_id. apply forallb_forall. intros k Hk.
  destruct (dict_get_of_key Z.eqb Z_eqb_spec k (contacts st) Hk) as [c G].
  rewrite G. destruct (dict_get_valid st k c Hv G) as ((n & Hn & _) & (p & Hp & _) & _).
  unfold query_test. now rewrite Hn, Hp, str_in_empty.
Qed.

(** C10. [Contact.__init__] stores the three values it was given as they
    are: with a name and a phone that pass, an email [None] is stored as
    [None] and an email [""] as [""], and the two stored values differ. *)
Theorem Contact_init_stores_verbatim :
  (forall n p e st c st',
      Contact_init n p e st = Ok c st' -> name c = n /\ phone c = p /\ email c = e)
  /\ (forall n p st, n <> "" -> p <> "" ->
        Contact_init (VStr n) (VStr p) VNone st
        = Ok (mkContact (VStr n) (VStr p) VNone) st
        /\ Contact_init (VStr n) (VStr p) (VStr "") st
           = Ok (mkContact (VStr n) (VStr p) (VStr "")) st)
  /\ VNone <> VStr "".
Proof. clear lower path.
  split; [|split].
  - intros n p e st c st'. rewrite Contact_init_eq.
    destruct (first_failure (n, p, e)); [discriminate|].
    intros H. injection H as <- _. simpl. tauto.
  - intros n p st Hn Hp. rewrite !Contact_init_eq.
    destruct n; [congruence|]. destruct p; [congruence|]. split; reflexivity.
  - discriminate.
Qed.


Lemma session_app (evs evs' : list event) (st : State) :
  state_of (session (evs ++ evs') st)
  = match session evs st with
    | Ok _ st' => state_of (session evs' st')
    | Raise _ st' => st'
    end.
Proof.
  revert st. induction evs as [|ev evs IH]; intros st; simpl; [reflexivity|].
  unfold bind. destruct (do_event ev st) as [[] st'|ex st']; [apply IH | reflexivity].
Qed.

(** C4, as the program has it. Export then import, on a store of [N]
    contacts that satisfies the invariant and whose names, phones and emails
    are each within the 131072 characters the csv reader takes for a cell:
    the import reports [N] contacts and no skipped row, and the store gains
    [N] contacts under the fresh ids [next_id], ..., [next_id + N - 1], in
    order; each has the name and the phone of its original, and its email,
    except that an email [None] comes back as the empty text. *)
Theorem round_trip_up_to_absent_email (st : State) :
  invariant st ->
  Forall fits (map snd (contacts st)) ->
  export_then_import st
  = Ok tt
      (mkState
         (contacts st
          ++ numbered (next_id st) (map through_csv (map snd (contacts st))))%list
         (next_id st + Z.of_nat (length (contacts st)))
         (stdout st ++ export_report (contacts st)
          ++ import_report (Z.of_nat (length (contacts st))) false)
         (Some (exported_file (contacts st))))
  /\ (forall k,
        In k (dict_keys (numbered (next_id st)
                           (map through_csv (map snd (contacts st))))) ->
        next_id st <= k < next_id st + Z.of_nat (length (contacts st))
        /\ ~ In k (dict_keys (contacts st)))
  /\ (forall c, In c (map snd (contacts st)) ->
        name (through_csv c) = name c
        /\ phone (through_csv c) = phone c
        /\ (email c = VNone -> email (through_csv c) = VStr "")
        /\ (email c <> VNone -> email (through_csv c) = email c)).
Proof.
  intros I Hfits. pose proof I as (Hv & H0 & Hk & Hnd).
  destruct (imported_exported (map snd (contacts st)) Hv) as (I1 & I2 & I3).
  split; [|split].
  - unfold export_then_import, bind. rewrite (action_export_eq st Hnd).
    rewrite (action_import_eq _ (exported_file (contacts st)));
      cbn [contacts next_id stdout file].
    + rewrite DictReader_exported, I1, I2, I3, !length_map.
      cbn [app]. now rewrite <- app_assoc.
    + reflexivity.
    + now apply exported_readable.
    + intros k H. apply Hk in H. lia.
  - intros k H. apply keys_numbered_ge in H. rewrite !length_map in H.
    split; [exact H|]. intros Hin. apply Hk in Hin. lia.
  - intros c Hc. rewrite Forall_forall in Hv.
    destruct (Hv c Hc) as (_ & _ & He). unfold through_csv; simpl.
    repeat split.
    + now intros ->.
    + intros Hne. destruct He as [E | [E | (s & E & _)]]; [congruence | |];
        now rewrite E.
Qed.

(** C6. [next_id] is 0 at the start.  A creation that succeeds stores the
    contact under the id [next_id], which is no key of the store, and adds
    exactly 1 to [next_id]; a creation that fails leaves it.  An import adds
    the number of rows it imported, of those the reader got to read (all the
    rows of the file, when the reader can read it all), and nothing when
    there is no file.
    Listing, searching, deleting and exporting leave it.  In every reachable
    state every key of the store is at least 0 and below [next_id], and no
    key is there twice; and from a reachable state on, however the session
    goes on, [next_id] never goes down and an id below it is never given to
    another contact. *)
Theorem next_id_counter :
  (forall f, next_id (initial f) = 0)
  /\ (forall n p e st st',
        invariant st -> create n p e st = Ok tt st' ->
        next_id st' = next_id st + 1
        /\ ~ In (next_id st) (dict_keys (contacts st))
        /\ contacts st' = (contacts st ++ [(next_id st, mkContact n p e)])%list)
  /\ (forall n p e st ex st',
        create n p e st = Raise ex st' -> next_id st' = next_id st)
  /\ (forall n p e st,
        next_id (state_of (menu_turn (Create n p e) st))
        = match create n p e st with
          | Ok _ _ => next_id st + 1
          | Raise _ _ => next_id st
          end)
  /\ (forall st,
        invariant st ->
        next_id (state_of (menu_turn Import st))
        = match file st with
          | Some f => next_id st + Z.of_nat (length (imported (rows_read f)))
          | None => next_id st
          end)
  /\ (forall f, all_readable f = true -> rows_read f = DictReader f)
  /\ (forall a st,
        match a with Create _ _ _ | Import => False | _ => True end ->
        next_id (state_of (menu_turn a st)) = next_id st)
  /\ (forall evs f,
        0 <= next_id (state_of (session evs (initial f)))
        /\ (forall k, In k (dict_keys (contacts (state_of (session evs (initial f))))) ->
                      0 <= k < next_id (state_of (session evs (initial f))))
        /\ NoDup (dict_keys (contacts (state_of (session evs (initial f))))))
  /\ (forall evs evs' f,
        next_id (state_of (session evs (initial f)))
        <= next_id (state_of (session (evs ++ evs') (initial f)))
        /\ (forall k c,
              dict_get Z.eqb k (contacts (state_of (session (evs ++ evs') (initial f))))
              = Some c ->
              k < next_id (state_of (session evs (initial f))) ->
              dict_get Z.eqb k (contacts (state_of (session evs (initial f))))
              = Some c)).
Proof.
  repeat match goal with |- _ /\ _ => split end.
  - reflexivity.
  - intros n p e st st' I. pose proof (fresh_next_id st I) as Hf.
    rewrite create_eq. destruct (first_failure (n, p, e)); [discriminate|].
    intros H. injection H as <-. simpl.
    rewrite (dict_setitem_new Z.eqb Z_eqb_spec _ _ _ Hf). tauto.
  - intros n p e st ex st'. rewrite create_eq.
    destruct (first_failure (n, p, e)); [|discriminate].
    intros H. now injection H as _ <-.
  - intros n p e st. unfold menu_turn, try_except_interrupt. simpl.
    unfold action_create, bind, try_except_CVE, print. simpl.
    rewrite !create_eq. destruct (first_failure (n, p, e)); reflexivity.
  - intros st I. unfold menu_turn, try_except_interrupt. simpl.
    destruct (file st) as [f|] eqn:Hf.
    + assert (forall k, In k (dict_keys (contacts st)) -> k < next_id st) as Hk'
        by (destruct I as (_ & _ & Hk & _); intros k H; apply Hk in H; lia).
      destruct (all_readable f) eqn:Hr.
      * rewrite (action_import_eq st f Hf Hr Hk'), (rows_read_all f Hr).
        reflexivity.
      * rewrite (action_import_raise st f Hf Hr Hk'). reflexivity.
    + pose proof (action_import_no_file st Hf) as [_ Hn].
      destruct (action_import st) as [[] st'|[] st']; simpl in *; exact Hn.
  - exact rows_read_all.
  - intros a st Ha.
    assert (steps (fun s s' => next_id s' = next_id s) (menu_turn a)) as S.
    { assert (forall x y z : State,
                 next_id y = next_id x -> next_id z = next_id y ->
                 next_id z = next_id x) as T by (intros; congruence).
      assert (forall x y : State, same_store x y -> next_id y = next_id x) as Sm
        by (intros x y [_ H]; exact H).
      unfold menu_turn. apply steps_try_except_interrupt; try assumption.
      - destruct a; simpl; try contradiction.
        + now apply steps_action_list.
        + now apply steps_action_search.
        + apply steps_action_delete; try assumption.
          intros idd s. unfold contacts_delitem.
          destruct (dict_delitem Z.eqb idd (contacts s)); reflexivity.
        + now apply steps_action_export.
      - intros s. reflexivity. }
    apply S.
  - intros evs f. destruct (invariant_reachable evs f) as (_ & H0 & Hk & Hnd).
    tauto.
  - intros evs evs' f. rewrite session_app.
    pose proof (invariant_reachable evs f) as I.
    destruct (session evs (initial f)) as [[] st|ex st]; simpl in *.
    + destruct (grows_session evs' st I) as (_ & Hle & Hg). split; assumption.
    + split; [lia | tauto].
Qed.

(** C7. Where the code breaks the claim: a record that the csv reader
    cannot parse (a cell of more than 131072 characters) is no row that
    fails and is skipped.  The reader raises [_csv.Error] from the [for]
    statement, outside the [try] of the row, and nothing in [action_import]
    nor in the menu loop catches it.  So on a file whose records [before]
    can be read and whose next record [r] cannot, whatever the records
    [rest] behind it: the import ends in that exception with the rows of
    [before] through (the accepted ones stored, the rejected ones logged),
    no row of [rest] is looked at, neither count nor flag is reported, and
    the session is over. *)
Theorem import_aborts_at_unreadable_record (st : State) (fieldnames : csv_record)
  (before : list csv_record) (r : csv_record) (rest : list csv_record) :
  invariant st ->
  file st = Some (fieldnames :: before ++ r :: rest)%list ->
  all_readable (fieldnames :: before) = true ->
  readable r = false ->
  action_import st
  = Raise csv_Error
      (mkState
         (contacts st
          ++ numbered (next_id st) (imported (DictReader (fieldnames :: before))))%list
         (next_id st + Z.of_nat (length (imported (DictReader (fieldnames :: before)))))
         (stdout st ++ skipped_lines 0 (DictReader (fieldnames :: before)))
         (file st))
  /\ menu_turn Import st = action_import st
  /\ (forall evs, session (Act Import :: evs) st = action_import st).
Proof.
  intros (_ & _ & Hk & _) Hf Hh Hr.
  assert (forall k, In k (dict_keys (contacts st)) -> k < next_id st) as Hlt
    by (intros k H; apply Hk in H; lia).
  unfold all_readable in Hh. cbn [forallb] in Hh.
  apply andb_true_iff in Hh. destruct Hh as [Hh Hb].
  assert (all_readable (fieldnames :: before ++ r :: rest)%list = false) as Hall.
  { unfold all_readable. cbn [forallb]. rewrite forallb_app. cbn [forallb].
    rewrite Hr. now rewrite andb_false_r, andb_false_r. }
  assert (rows_read (fieldnames :: before ++ r :: rest)%list
          = DictReader (fieldnames :: before)) as Hrows.
  { unfold rows_read. rewrite Hh. f_equal. f_equal. clear Hf Hall.
    induction before as [|b before IH]; cbn [app readable_prefix].
    - now rewrite Hr.
    - cbn [forallb] in Hb. apply andb_true_iff in Hb. destruct Hb as [-> Hb].
      now rewrite IH. }
  assert (action_import st
          = Raise csv_Error
              (mkState
                 (contacts st
                  ++ numbered (next_id st)
                       (imported (DictReader (fieldnames :: before))))%list
                 (next_id st
                  + Z.of_nat (length (imported (DictReader (fieldnames :: before)))))
                 (stdout st ++ skipped_lines 0 (DictReader (fieldnames :: before)))
                 (file st))) as E.
  { rewrite (action_import_raise st _ Hf Hall Hlt), Hrows. reflexivity. }
  split; [exact E|]. split.
  - unfold menu_turn, try_except_interrupt. cbn [run_action]. now rewrite E.
  - intros evs. cbn [session do_event]. unfold bind, menu_turn, try_except_interrupt.
    cbn [run_action]. now rewrite E.
Qed.

(** X20. An import of an existing file that the csv reader can read to its
    end, on a store that satisfies the invariant.  Each row has its own
    verdict, which depends on the row alone: a row without name is rejected
    as an empty name, a row with a name and without phone as an empty phone,
    any other row as the constructor decides.  The body of the loop never
    raises: a rejected row is logged and sets the flag, an accepted row is
    stored under [next_id] and counted.  So the loop ends with the contacts
    of all accepted rows appended in order under fresh consecutive ids, the
    count of accepted rows, and a flag that is true exactly when some row
    was rejected; and [action_import] prints the log and the report of that
    count and flag. *)
Theorem import_row_by_row (st : State) (f : csv_file) :
  file st = Some f -> invariant st -> all_readable f = true ->
  import_rows st
  = Ok (Z.of_nat (length (imported (DictReader f))), any_skipped (DictReader f))
       (mkState (contacts st ++ numbered (next_id st) (imported (DictReader f)))%list
          (next_id st + Z.of_nat (length (imported (DictReader f))))
          (stdout st ++ skipped_lines 0 (DictReader f)) (Some f))
  /\ action_import st
     = Ok tt
         (mkState (contacts st ++ numbered (next_id st) (imported (DictReader f)))%list
            (next_id st + Z.of_nat (length (imported (DictReader f))))
            (stdout st ++ skipped_lines 0 (DictReader f)
             ++ import_report (Z.of_nat (length (imported (DictReader f))))
                              (any_skipped (DictReader f)))
            (Some f))
  /\ (forall row, row_get "name" row = VNone -> row_result row = inl empty_name)
  /\ (forall row, row_get "name" row <> VNone -> row_get "phone" row = VNone ->
                  row_result row = inl empty_phone)
  /\ (forall i row acc s,
        import_body i row acc s =
        match row_result row with
        | inl e =>
            Ok (fst acc, true)
               (mkState (contacts s) (next_id s)
                  (stdout s ++ ["❌ Error in row " ++ str_of_nat i ++ " (skipping): "
                                ++ CVE_str e ++ " 🤔."])
                  (file s))
        | inr c =>
            Ok (fst acc + 1, snd acc)
               (mkState (dict_setitem Z.eqb (next_id s) c (contacts s))
                  (next_id s + 1) (stdout s) (file s))
        end)
  /\ (any_skipped (DictReader f) = true <->
      exists row e, In row (DictReader f) /\ row_result row = inl e)
  /\ (forall k, In k (dict_keys (numbered (next_id st) (imported (DictReader f)))) ->
                next_id st <= k /\ ~ In k (dict_keys (contacts st))).
Proof.
  intros Hf (_ & _ & Hk & _) Hr.
  assert (forall k, In k (dict_keys (contacts st)) -> k < next_id st) as Hlt
    by (intros k H; apply Hk in H; lia).
  repeat match goal with |- _ /\ _ => split end.
  - now apply import_rows_eq.
  - now apply action_import_eq.
  - intros row H. unfold row_result. now rewrite H.
  - intros row Hn Hp. unfold row_result. rewrite Hp.
    destruct (row_get "name" row); [congruence | reflexivity..].
  - intros. apply import_body_eq.
  - unfold any_skipped. rewrite existsb_exists. split.
    + intros (row & Hin & H). destruct (row_result row) as [e|] eqn:E; [|discriminate].
      now exists row, e.
    + intros (row & e & Hin & H). exists row. now rewrite H.
  - intros k H. apply keys_numbered_ge in H. split; [lia|].
    intros Hin. apply Hlt in Hin. lia.
Qed.

(** C8. On a store that satisfies the invariant, once [del contacts[idd]]
    has succeeded, [contacts[idd]] raises [KeyError], and so does a second
    [del contacts[idd]]; the deletion took out the one entry under [idd] and
    left every other entry, their order and [next_id] as they were. *)
Theorem delete_then_not_found (idd : Z) (st st' : State) :
  invariant st ->
  contacts_delitem idd st = Ok tt st' ->
  contacts_getitem idd st' = Raise (KeyError idd) st'
  /\ contacts_delitem idd st' = Raise (KeyError idd) st'
  /\ (exists l1 c l2,
        contacts st = (l1 ++ (idd, c) :: l2)%list /\ contacts st' = (l1 ++ l2)%list)
  /\ (forall k, k <> idd ->
        dict_get Z.eqb k (contacts st') = dict_get Z.eqb k (contacts st))
  /\ next_id st' = next_id st.
Proof.
  intros (_ & _ & _ & Hnd). unfold contacts_delitem, contacts_getitem.
  destruct (dict_delitem Z.eqb idd (contacts st)) as [d'|] eqn:D; [|discriminate].
  intros H. injection H as <-. simpl.
  destruct (dict_delitem_some Z.eqb Z_eqb_spec _ _ _ D) as (l1 & c & l2 & E & -> & Hn).
  rewrite E in Hnd. unfold dict_keys in Hnd. rewrite map_app in Hnd. simpl in Hnd.
  apply NoDup_remove_2 in Hnd. rewrite <- map_app in Hnd.
  repeat match goal with |- _ /\ _ => split end.
  - now rewrite (dict_get_none Z.eqb Z_eqb_spec _ _ Hnd).
  - apply (dict_delitem_none Z.eqb Z_eqb_spec) in Hnd. now rewrite Hnd.
  - now exists l1, c, l2.
  - intros k Hne. rewrite E, !dict_get_app. simpl.
    destruct (Z.eqb_spec k idd); [contradiction | reflexivity].
  - reflexivity.
Qed.

(** ** Further properties: running the actions *)

Lemma bind_ok {A B} (m : M A) (k : A -> M B) (st st' : State) (a : A) :
  m st = Ok a st' -> bind m k st = k a st'.
Proof. intros H. unfold bind. now rewrite H. Qed.

Lemma bind_raise {A B} (m : M A) (k : A -> M B) (st st' : State) (ex : exn) :
  m st = Raise ex st' -> bind m k st = Raise ex st'.
Proof. intros H. unfold bind. now rewrite H. Qed.

Lemma print_eq (line : string) (st : State) :
  print line st = Ok tt (printed st [line]).
Proof. reflexivity. Qed.

Lemma printed_printed (st : State) (a b : list string) :
  printed (printed st a) b = printed st (a ++ b).
Proof. unfold printed; simpl. now rewrite <- app_assoc. Qed.

Lemma printed_nil (st : State) : printed st [] = st.
Proof. unfold printed. rewrite app_nil_r. now destruct st. Qed.

Lemma valid_text_or_None (c : Contact) :
  valid_contact c -> text_or_None (email c) = true.
Proof. intros (_ & _ & [-> | [-> | (e & -> & _)]]); reflexivity. Qed.

Lemma not_None_and_nonempty_text (s : string) (st : State) :
  not_None_and_nonempty (VStr s) st
  = Ok (match s with EmptyString => false | String _ _ => true end) st.
Proof. destruct s; reflexivity. Qed.

Lemma Contact_str_eq (c : Contact) (st : State) :
  text_or_None (email c) = true -> Contact_str c st = Ok (contact_line c) st.
Proof.
  unfold Contact_str, contact_line, bind.
  destruct (email c) as [|[|a e]| |]; try discriminate; reflexivity.
Qed.

Lemma listable_valid (st : State) (ids : list Z) :
  Forall valid_contact (map snd (contacts st)) ->
  (forall k, In k ids -> In k (dict_keys (contacts st))) ->
  listable (contacts st) ids.
Proof.
  intros Hv Hk k Hin.
  destruct (dict_get_of_key Z.eqb Z_eqb_spec k (contacts st) (Hk k Hin)) as [c G].
  exists c. split; [exact G|]. apply valid_text_or_None.
  eapply dict_get_valid; eassumption.
Qed.

Lemma listt_eq (ids : list Z) :
  forall st, listable (contacts st) ids ->
  listt ids st = Ok tt (printed st (lines_of (contacts st) ids)).
Proof.
  unfold listt. induction ids as [|k ids IH]; intros st Hl; simpl.
  - unfold ret. now rewrite printed_nil.
  - destruct (Hl k (or_introl eq_refl)) as (c & G & Ht).
    unfold bind at 1. unfold bind at 1. unfold contacts_getitem at 1. rewrite G.
    unfold bind at 1. rewrite (Contact_str_eq c st Ht), print_eq.
    rewrite IH by (intros k' Hk'; apply Hl; now right).
    now rewrite printed_printed.
Qed.

(** [listt] stops with a [KeyError] at the first id that is no key, the
    lines before it printed. *)
Lemma listt_missing (ids1 ids2 : list Z) (k : Z) (st : State) :
  listable (contacts st) ids1 ->
  ~ In k (dict_keys (contacts st)) ->
  listt (ids1 ++ k :: ids2) st
  = Raise (KeyError k) (printed st (lines_of (contacts st) ids1)).
Proof.
  unfold listt. revert st. induction ids1 as [|k1 ids1 IH]; intros st Hl Hk; simpl.
  - unfold bind, contacts_getitem.
    rewrite (dict_get_none Z.eqb Z_eqb_spec _ _ Hk). now rewrite printed_nil.
  - destruct (Hl k1 (or_introl eq_refl)) as (c & G & Ht).
    unfold bind at 1. unfold bind at 1. unfold contacts_getitem at 1. rewrite G.
    unfold bind at 1. rewrite (Contact_str_eq c st Ht), print_eq.
    rewrite IH; [| intros k' Hk'; apply Hl; now right | exact Hk].
    now rewrite printed_printed.
Qed.

Lemma lines_of_all (d : dict Z Contact) :
  NoDup (dict_keys d) ->
  lines_of d (dict_keys d) = map contact_line (map snd d).
Proof.
  intros Hnd. unfold lines_of, dict_keys. rewrite !map_map.
  apply map_ext_in. intros [k c] Hin. simpl.
  now rewrite (dict_get_in Z.eqb Z_eqb_spec k c d Hnd Hin).
Qed.

Lemma query_ids_eq (q : string) (st : State) :
  Forall valid_contact (map snd (contacts st)) ->
  query (VStr q) st = Ok (query_ids q (contacts st)) st.
Proof. apply query_eq. Qed.

Lemma query_ids_keys (q : string) (d : dict Z Contact) (k : Z) :
  In k (query_ids q d) -> In k (dict_keys d).
Proof. clear path validate_email. unfold query_ids. rewrite filter_In. tauto. Qed.

Lemma action_list_eq (st : State) :
  invariant st ->
  action_list st
  = Ok tt (printed st
             (match contacts st with
              | [] => ["Empty 🤷! Try creating a new contact."]
              | _ => map contact_line (map snd (contacts st))
              end ++ [""])%list).
Proof.
  intros (Hv & _ & _ & Hnd). unfold action_list.
  unfold bind at 1. unfold get_contacts at 1.
  destruct (contacts st) as [|kc d] eqn:E.
  - cbn [length Z.of_nat Z.eqb]. unfold bind.
    now rewrite !print_eq, printed_printed.
  - rewrite <- E in *.
    assert ((Z.of_nat (length (contacts st)) =? 0) = false) as ->
      by (rewrite E; reflexivity).
    unfold bind. rewrite listt_eq by (apply listable_valid; auto).
    rewrite print_eq, printed_printed. now rewrite lines_of_all.
Qed.

Lemma action_search_eq (q : string) (st : State) :
  invariant st ->
  action_search (VStr q) st
  = Ok tt (printed st
             ([""]
              ++ match q with
                 | EmptyString =>
                     ["Empty query 🤷! Please provide a non-empty query text."]
                 | String _ _ =>
                     match query_ids q (contacts st) with
                     | [] => ["Found no matches 🤦! Try a different query."]
                     | ids => lines_of (contacts st) ids
                     end
                 end
              ++ [""])%list).
Proof.
  intros (Hv & _ & _ & Hnd). unfold action_search.
  unfold bind at 1. rewrite print_eq.
  unfold bind at 1. rewrite not_None_and_nonempty_text.
  destruct q as [|a q].
  - unfold bind. now rewrite !print_eq, !printed_printed.
  - unfold bind at 1. unfold bind at 1.
    rewrite query_ids_eq by exact Hv. cbn [printed contacts].
    destruct (query_ids (String a q) (contacts st)) as [|k ids] eqn:Q.
    + cbn [length Z.of_nat Z.ltb Z.compare].
      now rewrite !print_eq, !printed_printed.
    + assert ((0 <? Z.of_nat (length (k :: ids))) = true) as -> by reflexivity.
      rewrite listt_eq.
      * now rewrite !print_eq, !printed_printed.
      * apply (listable_valid (printed st [""])); [exact Hv|].
        intros k' Hk'. apply (query_ids_keys (String a q)). cbn [printed contacts].
        now rewrite Q.
Qed.

Lemma action_search_None (st : State) :
  action_search VNone st
  = Ok tt (printed st [""; "Empty query 🤷! Please provide a non-empty query text."; ""]).
Proof.
  unfold action_search, bind, not_None_and_nonempty, ret.
  cbn [is_None negb]. now rewrite !print_eq, !printed_printed.
Qed.

Lemma action_create_eq (n p e : value) (st : State) :
  action_create n p e st =
  match first_failure (n, p, e) with
  | Some err =>
      Ok tt (printed st [""; "❌ Error: " ++ CVE_str err ++ " 🤔."; ""])
  | None =>
      Ok tt (mkState (dict_setitem Z.eqb (next_id st) (mkContact n p e) (contacts st))
               (next_id st + 1)
               (stdout st ++ [""; "✔ Created!"; ""]) (file st))
  end.
Proof.
  unfold action_create, bind, try_except_CVE. rewrite print_eq, create_eq.
  cbn [printed contacts next_id stdout file].
  destruct (first_failure (n, p, e)); unfold print, printed; simpl;
    now rewrite <- !app_assoc.
Qed.

Lemma action_import_missing (st : State) :
  file st = None ->
  action_import st = Ok tt (printed st [file_not_found_message; ""]).
Proof.
  intros Hf. unfold action_import, try_except_FileNotFound.
  unfold bind at 1. unfold import_rows, bind at 1, open_rt.
  rewrite Hf. unfold bind. now rewrite !print_eq, printed_printed.
Qed.

Lemma choices_eq (ids : list Z) (st : State) :
  listable (contacts st) ids ->
  for_each (fun idd (_ : unit) =>
              contact <- contacts_getitem idd ;;
              _ <- Contact_str contact ;; ret tt) ids tt st
  = Ok tt st.
Proof.
  induction ids as [|k ids IH]; intros Hl; simpl; [reflexivity|].
  destruct (Hl k (or_introl eq_refl)) as (c & G & Ht).
  unfold bind at 1. unfold bind at 1. unfold contacts_getitem at 1. rewrite G.
  unfold bind at 1. rewrite (Contact_str_eq c st Ht). unfold ret at 1.
  apply IH. intros k' Hk'. apply Hl. now right.
Qed.

Lemma contacts_delitem_key (k : Z) (st : State) :
  In k (dict_keys (contacts st)) ->
  contacts_delitem k st
  = Ok tt (mkState (without k (contacts st)) (next_id st) (stdout st) (file st)).
Proof.
  intros Hk. unfold contacts_delitem, without.
  destruct (dict_delitem Z.eqb k (contacts st)) eqn:D; [reflexivity|].
  now apply (dict_delitem_none Z.eqb Z_eqb_spec) in D.
Qed.

(** The confirmation and what follows it in [action_delete], for the
    contact under [k]. *)
Lemma confirm_eq (k : Z) (y : option bool) (st : State) :
  In k (dict_keys (contacts st)) ->
  ((y <- match y with
         | None => print "" ;;; ret false
         | Some b => ret b
         end ;;
    if y then contacts_delitem k ;;; print "✔ Deleted!"
    else print "❌ Deletion cancelled.") st)
  = match y with
    | Some true =>
        Ok tt (mkState (without k (contacts st)) (next_id st)
                 (stdout st ++ ["✔ Deleted!"]) (file st))
    | Some false => Ok tt (printed st ["❌ Deletion cancelled."])
    | None => Ok tt (printed st [""; "❌ Deletion cancelled."])
    end.
Proof.
  intros Hk. destruct y as [[|]|]; unfold bind, ret.
  - now rewrite contacts_delitem_key.
  - reflexivity.
  - now rewrite !print_eq, printed_printed.
Qed.

Lemma action_delete_eq (q : string) (pick : nat) (y : option bool) (st : State) :
  invariant st -> q <> "" ->
  action_delete (VStr q) pick y st =
  match delete_choice (query_ids q (contacts st)) pick with
  | None =>
      match query_ids q (contacts st) with
      | [] => Ok tt (printed st [""; "Found no matches 🤦! Try a different query."; ""])
      | _ => Raise KeyboardInterrupt (printed st [""])
      end
  | Some k =>
      match y with
      | Some true =>
          Ok tt (mkState (without k (contacts st)) (next_id st)
                   (stdout st
                    ++ [""]
                    ++ match query_ids q (contacts st) with
                       | [_] => lines_of (contacts st) [k] ++ [""]
                       | _ => []
                       end
                    ++ ["✔ Deleted!"; ""])%list
                   (file st))
      | Some false =>
          Ok tt (printed st
                   ([""]
                    ++ match query_ids q (contacts st) with
                       | [_] => lines_of (contacts st) [k] ++ [""]
                       | _ => []
                       end
                    ++ ["❌ Deletion cancelled."; ""])%list)
      | None =>
          Ok tt (printed st
                   ([""]
                    ++ match query_ids q (contacts st) with
                       | [_] => lines_of (contacts st) [k] ++ [""]
                       | _ => []
                       end
                    ++ [""; "❌ Deletion cancelled."; ""])%list)
      end
  end.
Proof.
  intros (Hv & _ & _ & Hnd) Hq. unfold action_delete.
  unfold bind at 1. rewrite print_eq.
  unfold bind at 1. rewrite not_None_and_nonempty_text.
  destruct q as [|a q]; [congruence|]. set (q' := String a q) in *.
  unfold bind at 1. unfold bind at 1.
  rewrite query_ids_eq by exact Hv. cbn [printed contacts].
  assert (listable (contacts st) (query_ids q' (contacts st))) as Hl
    by (apply listable_valid; [exact Hv | apply query_ids_keys]).
  assert (forall k, In k (query_ids q' (contacts st)) ->
                    In k (dict_keys (contacts st))) as Hkeys
    by apply query_ids_keys.
  destruct (query_ids q' (contacts st)) as [|k1 [|k2 ids]] eqn:Q.
  - cbn [delete_choice length Z.of_nat Z.eqb Z.ltb Z.compare]. unfold bind, ret.
    now rewrite !print_eq, !printed_printed.
  - cbn [delete_choice length Z.of_nat Z.eqb Pos.of_succ_nat Pos.eqb].
    destruct (Hl k1 (or_introl eq_refl)) as (c & G & Ht).
    unfold bind at 1. unfold bind at 1. unfold contacts_getitem at 1.
    change (contacts (printed st [""])) with (contacts st). rewrite G.
    unfold bind at 1. rewrite Contact_str_eq by exact Ht.
    unfold bind at 1. rewrite print_eq. unfold bind at 1. rewrite print_eq.
    unfold ret at 1. rewrite !printed_printed.
    rewrite confirm_eq by (apply Hkeys; now left).
    unfold lines_of. cbn [map]. rewrite G.
    destruct y as [[|]|]; rewrite ?print_eq, ?printed_printed; cbn [app];
      try reflexivity.
    unfold print, printed; cbn [contacts next_id stdout file].
    now rewrite <- !app_assoc.
  - assert (delete_choice (k1 :: k2 :: ids) pick = nth_error (k1 :: k2 :: ids) pick)
      as -> by reflexivity.
    assert ((Z.of_nat (length (k1 :: k2 :: ids)) =? 1) = false) as ->
      by (apply Z.eqb_neq; cbn [length]; lia).
    assert ((0 <? Z.of_nat (length (k1 :: k2 :: ids))) = true) as ->
      by (apply Z.ltb_lt; cbn [length]; lia).
    unfold bind at 1. unfold bind at 1.
    rewrite (choices_eq _ (printed st [""])) by exact Hl.
    destruct (nth_error (k1 :: k2 :: ids) pick) as [k|] eqn:N.
    + unfold ret at 1.
      rewrite confirm_eq by (apply Hkeys; eapply nth_error_In; exact N).
      destruct y as [[|]|]; rewrite ?print_eq, ?printed_printed; cbn [app];
        try reflexivity.
      unfold print, printed; cbn [contacts next_id stdout file].
      now rewrite <- !app_assoc.
    + reflexivity.
Qed.

Lemma valid_first_failure (n p e : value) :
  valid_contact (mkContact n p e) -> first_failure (n, p, e) = None.
Proof.
  intros ((n' & Hn & Hn0) & (p' & Hp & Hp0) & He). simpl in *. subst.
  destruct n' as [|a n']; [congruence|]. destruct p' as [|b p']; [congruence|].
  destruct He as [-> | [-> | (e' & -> & Hv)]]; try reflexivity.
  destruct e' as [|c e']; [reflexivity|].
  unfold first_failure; cbn. now rewrite Hv.
Qed.

Lemma invariant_printed (st : State) (out : list string) :
  invariant st -> invariant (printed st out).
Proof. intros I. exact I. Qed.

Lemma delete_choice_In (ids : list Z) (pick : nat) (k : Z) :
  delete_choice ids pick = Some k -> In k ids.
Proof.
  destruct ids as [|k1 [|k2 ids]]; simpl; [discriminate | |].
  - intros H. injection H as ->. now left.
  - apply nth_error_In.
Qed.

Lemma without_key (k : Z) (d : dict Z Contact) :
  NoDup (dict_keys d) -> In k (dict_keys d) ->
  exists l1 c l2, d = (l1 ++ (k, c) :: l2)%list /\ without k d = (l1 ++ l2)%list
                  /\ ~ In k (dict_keys (l1 ++ l2)%list).
Proof.
  intros Hnd Hk. unfold without.
  destruct (dict_delitem Z.eqb k d) as [d'|] eqn:D.
  - destruct (dict_delitem_some Z.eqb Z_eqb_spec _ _ _ D) as (l1 & c & l2 & E & -> & _).
    exists l1, c, l2. repeat split; [exact E|].
    rewrite E in Hnd. unfold dict_keys in *. rewrite map_app in Hnd. simpl in Hnd.
    apply NoDup_remove_2 in Hnd. now rewrite map_app.
  - now apply (dict_delitem_none Z.eqb Z_eqb_spec) in D.
Qed.

Lemma append_empty (s : string) : s ++ "" = s.
Proof. induction s as [|a s IH]; simpl; [reflexivity | now rewrite IH]. Qed.

(** ** Further properties *)

(** X1. [Contact.__init__] returns a contact exactly for the triples whose
    name and phone are non-empty texts and whose email is [None], the empty
    text or a text [validate_email] accepts; nothing else is asked of the
    phone. *)
Theorem Contact_init_accepts_iff (n p e : value) (st : State) :
  (exists c st', Contact_init n p e st = Ok c st')
  <-> valid_contact (mkContact n p e).
Proof.
  rewrite Contact_init_eq. split.
  - intros (c & st' & H).
    destruct (first_failure (n, p, e)) eqn:F; [discriminate|].
    now apply first_failure_valid.
  - intros Hv. rewrite (valid_first_failure n p e Hv). eauto.
Qed.

(** X2. [Contact.__str__] shows the name and the phone, and the email only
    when it is a non-empty text: an email [None] and an empty email give
    the same line.  An email that is an [int] or a [bool], which have no
    [len()], makes it raise [TypeError]. *)
Theorem Contact_str_shows_email_when_present (c : Contact) (st : State) :
  (email c = VNone \/ email c = VStr "" ->
   Contact_str c st
   = Ok ("🧑 " ++ py_str (name c) ++ " / ☎ " ++ py_str (phone c)) st)
  /\ (forall a e, email c = VStr (String a e) ->
        Contact_str c st
        = Ok ("🧑 " ++ py_str (name c) ++ " / ☎ " ++ py_str (phone c)
              ++ " / 📧 " ++ String a e) st)
  /\ (forall n, email c = VInt n -> Contact_str c st = Raise TypeError st)
  /\ (forall b, email c = VBool b -> Contact_str c st = Raise TypeError st).
Proof.
  unfold Contact_str, bind. split; [|split; [|split]].
  - intros [-> | ->]; simpl; unfold ret; now rewrite append_empty.
  - intros a e ->. reflexivity.
  - intros n ->. reflexivity.
  - intros b ->. reflexivity.
Qed.

(** X3. On a store that satisfies the invariant, [listt(ids)] prints the
    line of each contact of [ids], in the order of [ids], when all of them
    are keys of the store, and changes nothing else; at the first id that is
    no key it raises [KeyError] for that id, the lines before it printed. *)
Theorem listt_prints_or_KeyError (st : State) :
  invariant st ->
  (forall ids,
      (forall k, In k ids -> In k (dict_keys (contacts st))) ->
      listt ids st = Ok tt (printed st (lines_of (contacts st) ids)))
  /\ (forall ids1 k ids2,
        (forall k', In k' ids1 -> In k' (dict_keys (contacts st))) ->
        ~ In k (dict_keys (contacts st)) ->
        listt (ids1 ++ k :: ids2) st
        = Raise (KeyError k) (printed st (lines_of (contacts st) ids1))).
Proof.
  intros (Hv & _). split.
  - intros ids Hk. apply listt_eq. now apply listable_valid.
  - intros ids1 k ids2 Hk Hn. apply listt_missing; [|exact Hn].
    now apply listable_valid.
Qed.

(** X4. On a store that satisfies the invariant, [action_list] prints the
    empty-state message when there is no contact, and otherwise one line per
    contact in insertion order; then a blank line.  It returns, and leaves
    the contacts, the counter and the file as they are. *)
Theorem action_list_prints_all (st : State) :
  invariant st ->
  action_list st
  = Ok tt (printed st
             (match contacts st with
              | [] => ["Empty 🤷! Try creating a new contact."]
              | _ => map contact_line (map snd (contacts st))
              end ++ [""])%list).
Proof. apply action_list_eq. Qed.

(** X5. On a store that satisfies the invariant, [action_search] with the
    answer [None] or the empty text prints the empty-query message and does
    not search; with a non-empty text it prints the lines of exactly the
    contacts [query] returns, in that order, or the no-match message when
    there is none.  In every case it returns and changes only the output. *)
Theorem action_search_prints_matches (st : State) :
  invariant st ->
  action_search VNone st
  = Ok tt (printed st [""; "Empty query 🤷! Please provide a non-empty query text."; ""])
  /\ action_search (VStr "") st
     = Ok tt (printed st [""; "Empty query 🤷! Please provide a non-empty query text."; ""])
  /\ (forall a q,
        exists ids,
          query (VStr (String a q)) st = Ok ids st
          /\ action_search (VStr (String a q)) st
             = Ok tt (printed st
                        ([""]
                         ++ match ids with
                            | [] => ["Found no matches 🤦! Try a different query."]
                            | _ => lines_of (contacts st) ids
                            end
                         ++ [""])%list)).
Proof.
  intros I. split; [apply action_search_None|]. split.
  - now rewrite action_search_eq.
  - intros a q. exists (query_ids (String a q) (contacts st)). split.
    + apply query_ids_eq. apply I.
    + rewrite action_search_eq by exact I.
      now destruct (query_ids (String a q) (contacts st)).
Qed.

Lemma string_app_assoc (a b c : string) : (a ++ b) ++ c = a ++ b ++ c.
Proof. induction a as [|x a IH]; simpl; [reflexivity | now rewrite IH]. Qed.

Lemma same_store_trans (a b c : State) :
  same_store a b -> same_store b c -> same_store a c.
Proof. intros [H1 H2] [H3 H4]. split; congruence. Qed.

Lemma same_store_id (a b : State) : same_store a b -> same_store a b.
Proof. exact (fun H => H). Qed.

(** X6. A deletion that is not confirmed (the answer is no, or [None])
    changes neither the contacts nor the counter, whatever the query, the
    choice and the store, also when the action ends in an exception. *)
Theorem action_delete_unconfirmed_keeps_store
  (q : value) (pick : nat) (y : option bool) (st : State) :
  y <> Some true ->
  same_store st (state_of (action_delete q pick y st)).
Proof.
  intros Hy. revert st. change (steps same_store (action_delete q pick y)).
  pose proof same_store_trans as T. pose proof same_store_id as S.
  unfold action_delete.
  apply steps_bind; [exact T | now apply steps_print |]. intros _.
  apply steps_bind; [exact T | now apply steps_not_None_and_nonempty |]. intros b.
  apply steps_bind; [exact T | | intros; now apply steps_print].
  destruct b; [|now apply steps_print].
  apply steps_bind; [exact T | now apply steps_query |]. intros ids.
  apply steps_bind; [exact T | |].
  - destruct (_ =? 1).
    + destruct ids; [now apply steps_ret|].
      apply steps_bind; [exact T | now apply steps_contacts_getitem |]. intros.
      apply steps_bind; [exact T | now apply steps_Contact_str |]. intros.
      apply steps_bind; [exact T | now apply steps_print |]. intros.
      apply steps_bind; [exact T | now apply steps_print |]. intros.
      now apply steps_ret.
    + destruct (0 <? _); [|now apply steps_ret].
      apply steps_bind; [exact T | |].
      * apply steps_for_each; [exact T | exact S |]. intros.
        apply steps_bind; [exact T | now apply steps_contacts_getitem |]. intros.
        apply steps_bind; [exact T | now apply steps_Contact_str |]. intros.
        now apply steps_ret.
      * intros. destruct (nth_error ids pick);
          [now apply steps_ret | now apply steps_raise].
  - intros [idd|]; [|now apply steps_print].
    destruct y as [[|]|]; [congruence | |]; intros s; split; reflexivity.
Qed.

(** X7. A confirmed deletion with a non-empty query, on a store that
    satisfies the invariant: the contact [action_delete] goes on with is the
    only id [query] returns, or the one the user picks among several.  The
    turn of the menu removes the entry of that contact and no other; when
    nothing matches, or the user leaves the choice, the contacts stay as they
    are.  The counter stays in every case. *)
Theorem action_delete_removes_choice (q : string) (pick : nat) (st : State) :
  invariant st -> q <> "" ->
  exists ids,
    query (VStr q) st = Ok ids st
    /\ next_id (state_of (menu_turn (Delete (VStr q) pick (Some true)) st))
       = next_id st
    /\ match delete_choice ids pick with
       | Some k =>
           In k ids
           /\ exists l1 c l2,
               contacts st = (l1 ++ (k, c) :: l2)%list
               /\ contacts (state_of (menu_turn (Delete (VStr q) pick (Some true)) st))
                  = (l1 ++ l2)%list
               /\ ~ In k (dict_keys (l1 ++ l2)%list)
       | None =>
           contacts (state_of (menu_turn (Delete (VStr q) pick (Some true)) st))
           = contacts st
       end.
Proof.
  intros I Hq. exists (query_ids q (contacts st)).
  split; [apply query_ids_eq; apply I|].
  unfold menu_turn, try_except_interrupt, run_action.
  rewrite (action_delete_eq q pick (Some true) st I Hq).
  destruct (delete_choice (query_ids q (contacts st)) pick) as [k|] eqn:D.
  - split; [reflexivity|]. pose proof (delete_choice_In _ _ _ D) as Hin.
    split; [exact Hin|]. destruct I as (_ & _ & _ & Hnd).
    destruct (without_key k (contacts st) Hnd (query_ids_keys q _ k Hin))
      as (l1 & c & l2 & E1 & E2 & E3).
    exists l1, c, l2. cbn [state_of contacts]. rewrite E2.
    split; [exact E1 | split; [reflexivity | exact E3]].
  - destruct (query_ids q (contacts st)); split; reflexivity.
Qed.

(** X8. [action_create] never raises.  When the constructor accepts the
    answers it prints the one line of success between two blank lines; when
    it refuses them it prints the one line of the error, made of its cause
    and its remedy, between two blank lines, and changes nothing else. *)
Theorem action_create_outcome (n p e : value) (st : State) :
  (first_failure (n, p, e) = None ->
   action_create n p e st
   = Ok tt (mkState (dict_setitem Z.eqb (next_id st) (mkContact n p e) (contacts st))
              (next_id st + 1)
              (stdout st ++ [""; "✔ Created!"; ""]) (file st)))
  /\ (forall err,
        first_failure (n, p, e) = Some err ->
        action_create n p e st
        = Ok tt (printed st [""; "❌ Error: " ++ message err ++ "; " ++ solution err
                                 ++ " 🤔."; ""])).
Proof.
  rewrite action_create_eq. split.
  - now intros ->.
  - intros err ->. unfold CVE_str. now rewrite <- !string_app_assoc.
Qed.

(** X9. When [contacts.csv] does not exist, [action_import] does not raise:
    it prints the message that names the path, then a blank line, and leaves
    the contacts, the counter and the missing file as they are. *)
Theorem action_import_without_file (st : State) :
  file st = None ->
  action_import st = Ok tt (printed st [file_not_found_message; ""]).
Proof. apply action_import_missing. Qed.






Lemma substring_refl (s : string) : substring s s.
Proof. exists "", "". simpl. now rewrite append_empty. Qed.

Lemma substring_trans (a b c : string) :
  substring a b -> substring b c -> substring a c.
Proof.
  intros (p1 & s1 & ->) (p2 & s2 & ->).
  exists (p2 ++ p1), (s1 ++ s2). now rewrite !string_app_assoc.
Qed.

Lemma matches_narrow (q1 q2 : string) (c : Contact) :
  substring (lower q1) (lower q2) -> matches q2 c -> matches q1 c.
Proof.
  intros Hs. unfold matches, field_matches.
  intros [(s & E & H) | [(s & E & H) | (s & E & H)]];
    [left | right; left | right; right];
    exists s; (split; [exact E | eapply substring_trans; eassumption]).
Qed.

(** X11. Narrowing: on a store that satisfies the invariant, when the
    lower-cased query [q1] is a substring of the lower-cased query [q2],
    every id that [query(q2)] returns is returned by [query(q1)] too. *)
Theorem query_narrows (q1 q2 : string) (st : State) :
  invariant st ->
  substring (lower q1) (lower q2) ->
  exists ids1 ids2,
    query (VStr q1) st = Ok ids1 st
    /\ query (VStr q2) st = Ok ids2 st
    /\ forall k, In k ids2 -> In k ids1.
Proof.
  intros (Hv & _) Hs.
  exists (query_ids q1 (contacts st)), (query_ids q2 (contacts st)).
  split; [now apply query_ids_eq|]. split; [now apply query_ids_eq|].
  intros k. unfold query_ids. rewrite !filter_In. intros [Hk Ht].
  split; [exact Hk|].
  destruct (dict_get Z.eqb k (contacts st)) as [c|] eqn:G; [|discriminate].
  pose proof (dict_get_valid st k c Hv G) as Hc.
  apply query_test_matches; [exact Hc|].
  apply (matches_narrow q1 q2); [exact Hs|].
  now apply query_test_matches.
Qed.

Lemma export_then_import_eq (st : State) :
  invariant st ->
  Forall fits (map snd (contacts st)) ->
  export_then_import st
  = Ok tt
      (mkState
         (contacts st
          ++ numbered (next_id st) (map through_csv (map snd (contacts st))))%list
         (next_id st + Z.of_nat (length (contacts st)))
         (stdout st ++ export_report (contacts st)
          ++ import_report (Z.of_nat (length (contacts st))) false)
         (Some (exported_file (contacts st)))).
Proof.
  intros (Hv & H0 & Hk & Hnd) Hfits.
  destruct (imported_exported (map snd (contacts st)) Hv) as (I1 & I2 & I3).
  unfold export_then_import, bind. rewrite (action_export_eq st Hnd).
  rewrite (action_import_eq _ (exported_file (contacts st)));
    cbn [contacts next_id stdout file].
  - rewrite DictReader_exported, I1, I2, I3, !length_map.
    cbn [app]. now rewrite <- app_assoc.
  - reflexivity.
  - now apply exported_readable.
  - intros k H. apply Hk in H. lia.
Qed.

Lemma through_csv_text (c : Contact) :
  valid_contact c -> email c <> VNone -> through_csv c = c.
Proof.
  intros (_ & _ & He) Hn. unfold through_csv. destruct c as [n p e]; simpl in *.
  destruct He as [-> | [-> | (s & -> & _)]]; [congruence | reflexivity..].
Qed.

(** X12. The round trip is exact on a store that satisfies the invariant,
    holds no email [None] (such is every store filled through
    [action_create] with answers of the text prompts) and whose names,
    phones and emails are each within the 131072 characters the csv reader
    takes for a cell: after export then import the store has gained, under
    the fresh ids [next_id], [next_id + 1], ..., contacts equal to the
    originals in all three fields. *)
Theorem round_trip_exact_without_None (st : State) :
  invariant st ->
  (forall c, In c (map snd (contacts st)) -> email c <> VNone) ->
  Forall fits (map snd (contacts st)) ->
  exact_round_trip st.
Proof.
  intros I Hn Hfits. unfold exact_round_trip.
  rewrite (export_then_import_eq st I Hfits).
  cbn [state_of contacts]. do 2 f_equal.
  destruct I as (Hv & _). rewrite Forall_forall in Hv.
  rewrite <- (map_id (map snd (contacts st))) at 2.
  apply map_ext_in. intros c Hc. apply through_csv_text; auto.
Qed.

(** X13. On a store that satisfies the invariant, [action_export] returns
    and leaves [contacts.csv] holding the header [name, phone, email] and
    then one record of three cells per contact, in insertion order: the name,
    the phone, and the email with [None] written as the empty cell.  Whatever
    the file held before is gone; the contacts and the counter are as they
    were. *)
Theorem action_export_writes_store (st : State) :
  invariant st ->
  action_export st
  = Ok tt
      (mkState (contacts st) (next_id st)
         (stdout st
          ++ [match contacts st with
              | [] => "✔ Exported (although empty 🤷)!"
              | _ => "✔ Exported!"
              end; ""])
         (Some (["name"; "phone"; "email"]
                :: map (fun c => [csv_cell (name c); csv_cell (phone c);
                                  csv_cell (email c)])
                     (map snd (contacts st)))))
  /\ (forall c, In c (map snd (contacts st)) ->
        exists n p,
          name c = VStr n /\ phone c = VStr p
          /\ [csv_cell (name c); csv_cell (phone c); csv_cell (email c)]
             = [n; p; match email c with VStr e => e | _ => "" end]).
Proof.
  intros (Hv & _ & _ & Hnd). split; [now apply action_export_eq|].
  intros c Hc. rewrite Forall_forall in Hv.
  destruct (Hv c Hc) as ((n & Hn & _) & (p & Hp & _) & He).
  exists n, p. rewrite Hn, Hp. repeat split.
  destruct He as [-> | [-> | (e & -> & _)]]; reflexivity.
Qed.

Lemma dict_get_setitem_other (k k' : string) (v : option string)
  (d : dict string (option string)) :
  k <> k' ->
  dict_get String.eqb k (dict_setitem String.eqb k' v d) = dict_get String.eqb k d.
Proof.
  intros Hne. induction d as [|[k0 v0] d IH]; simpl.
  - destruct (String.eqb_spec k k'); [contradiction | reflexivity].
  - destruct (String.eqb_spec k' k0) as [->|]; simpl.
    + destruct (String.eqb_spec k k0); [contradiction | reflexivity].
    + destruct (String.eqb_spec k k0); [reflexivity | exact IH].
Qed.

Lemma zip_row_get_other (key : string) (fieldnames : list string) :
  ~ In key fieldnames ->
  forall cells d,
  dict_get String.eqb key (zip_row fieldnames cells d) = dict_get String.eqb key d.
Proof.
  induction fieldnames as [|f fs IH]; intros Hn cells d; simpl; [reflexivity|].
  assert (key <> f) as Hne by (intros ->; apply Hn; now left).
  assert (~ In key fs) as Hn' by (intros H; apply Hn; now right).
  destruct cells as [|c cs]; rewrite (IH Hn'); now apply dict_get_setitem_other.
Qed.

Lemma imported_all_rejected (rows : list (dict string (option string))) :
  (forall row, In row rows -> exists e, row_result row = inl e) ->
  imported rows = []
  /\ any_skipped rows = match rows with [] => false | _ => true end.
Proof.
  intros H. split.
  - induction rows as [|row rows IH]; simpl; [reflexivity|].
    destruct (H row (or_introl eq_refl)) as [e ->].
    apply IH. intros r Hr. apply H. now right.
  - destruct rows as [|row rows]; [reflexivity|]. unfold any_skipped. simpl.
    now destruct (H row (or_introl eq_refl)) as [e ->].
Qed.

(** X14. Columns are found by name: when the header of [contacts.csv] has
    no column [name], or no column [phone], an import on a store that
    satisfies the invariant imports nothing: however the loop ends, the
    contacts and the counter are as they were.  When the csv reader can read
    the file to its end, the loop returns the count 0, with the flag set
    exactly when the file has a non-blank record after the header. *)
Theorem import_without_name_or_phone_column
  (st : State) (fieldnames : csv_record) (records : csv_file) :
  invariant st ->
  file st = Some (fieldnames :: records) ->
  ~ In "name" fieldnames \/ ~ In "phone" fieldnames ->
  contacts (state_of (import_rows st)) = contacts st
  /\ next_id (state_of (import_rows st)) = next_id st
  /\ (all_readable (fieldnames :: records) = true ->
      exists st',
        import_rows st
        = Ok (0, match filter (fun r => negb (is_blank r)) records with
                 | [] => false
                 | _ => true
                 end) st').
Proof.
  intros (_ & _ & Hk & _) Hf Hc.
  assert (forall k, In k (dict_keys (contacts st)) -> k < next_id st) as Hlt
    by (intros k H; apply Hk in H; lia).
  assert (forall recs row, In row (DictReader (fieldnames :: recs)) ->
                           exists e, row_result row = inl e) as Hr.
  { intros recs row Hin. unfold DictReader in Hin. apply in_map_iff in Hin.
    destruct Hin as (r & <- & _). unfold row_result.
    destruct Hc as [Hc | Hc].
    - unfold row_get at 1. rewrite (zip_row_get_other "name" fieldnames Hc).
      simpl. eauto.
    - destruct (is_None (row_get "name" (zip_row fieldnames r []))); [eauto|].
      unfold row_get at 1. rewrite (zip_row_get_other "phone" fieldnames Hc).
      simpl. eauto. }
  assert (imported (rows_read (fieldnames :: records)) = []) as Hnone.
  { unfold rows_read. destruct (readable fieldnames); [|reflexivity].
    apply imported_all_rejected, Hr. }
  rewrite (import_rows_gen st _ Hf Hlt).
  split; [|split].
  - destruct (all_readable (fieldnames :: records));
      cbn [state_of after_rows contacts]; rewrite Hnone; cbn [numbered];
      apply app_nil_r.
  - destruct (all_readable (fieldnames :: records));
      cbn [state_of after_rows next_id]; rewrite Hnone; cbn [length Z.of_nat]; lia.
  - intros Hall. rewrite Hall, (rows_read_all _ Hall).
    destruct (imported_all_rejected _ (Hr records)) as [-> ->].
    eexists. f_equal. f_equal. unfold DictReader.
    now destruct (filter (fun r => negb (is_blank r)) records).
Qed.

(** X15. Create then find: on a store that satisfies the invariant, after a
    creation with the name [n] has succeeded, the store holds under the id
    the counter had exactly the contact made of the three answers, and
    [query(n)] returns and has that id among its results. *)
Theorem create_then_find (n : string) (p e : value) (st st' : State) :
  invariant st ->
  create (VStr n) p e st = Ok tt st' ->
  contacts_getitem (next_id st) st' = Ok (mkContact (VStr n) p e) st'
  /\ exists ids, query (VStr n) st' = Ok ids st' /\ In (next_id st) ids.
Proof.
  intros I Hc. pose proof (grows_create (VStr n) p e st I) as (I' & _).
  rewrite Hc in I'. simpl in I'.
  pose proof (fresh_next_id st I) as Hf.
  rewrite create_eq in Hc.
  destruct (first_failure (VStr n, p, e)) eqn:F; [discriminate|].
  injection Hc as <-.
  assert (dict_get Z.eqb (next_id st)
            (dict_setitem Z.eqb (next_id st) (mkContact (VStr n) p e) (contacts st))
          = Some (mkContact (VStr n) p e)) as G.
  { rewrite (dict_setitem_new Z.eqb Z_eqb_spec _ _ _ Hf), dict_get_app.
    rewrite (dict_get_none Z.eqb Z_eqb_spec _ _ Hf). simpl.
    now rewrite Z.eqb_refl. }
  split.
  - unfold contacts_getitem. cbn [contacts]. now rewrite G.
  - eexists. split; [apply query_ids_eq; apply I'|].
    unfold query_ids. apply filter_In. cbn [contacts]. split.
    + eapply dict_get_some_key; [apply Z_eqb_spec | exact G].
    + rewrite G. apply query_test_matches.
      * now apply first_failure_valid.
      * left. exists n. split; [reflexivity | apply substring_refl].
Qed.

Lemma filter_other (k : Z) (f : Z -> bool) (l : list Z) :
  ~ In k l -> filter (fun x => negb (x =? k)) (filter f l) = filter f l.
Proof.
  intros Hn. apply forallb_filter_id. apply forallb_forall.
  intros x Hx. apply filter_In in Hx. destruct Hx as [Hx _].
  apply negb_true_iff, Z.eqb_neq. intros ->. contradiction.
Qed.

(** X16. Delete then search: on a store that satisfies the invariant, once
    [del contacts[k]] has succeeded, [query(q)] returns what it returned
    before without [k], in the same order, for every text [q]. *)
Theorem delete_then_query (k : Z) (q : string) (st st' : State) :
  invariant st ->
  contacts_delitem k st = Ok tt st' ->
  exists ids ids',
    query (VStr q) st = Ok ids st
    /\ query (VStr q) st' = Ok ids' st'
    /\ ids' = filter (fun x => negb (x =? k)) ids.
Proof. clear path.
  intros I Hd. pose proof (grows_delitem k st I) as (I' & _).
  rewrite Hd in I'. simpl in I'.
  exists (query_ids q (contacts st)), (query_ids q (contacts st')).
  split; [apply query_ids_eq; apply I|]. split; [apply query_ids_eq; apply I'|].
  destruct I as (_ & _ & _ & Hnd).
  unfold contacts_delitem in Hd.
  destruct (dict_delitem Z.eqb k (contacts st)) as [d'|] eqn:D; [|discriminate].
  injection Hd as <-. cbn [contacts].
  destruct (dict_delitem_some Z.eqb Z_eqb_spec _ _ _ D) as (l1 & c & l2 & E & -> & Hn1).
  rewrite E in *. unfold query_ids, dict_keys in *.
  rewrite !map_app in *. cbn [map fst] in *.
  pose proof (NoDup_remove_2 _ _ _ Hnd) as Hn.
  assert (~ In k (map fst l1) /\ ~ In k (map fst l2)) as [Hk1 Hk2]
    by (split; intros H; apply Hn, in_or_app; tauto).
  assert (forall x, x <> k ->
            dict_get Z.eqb x (l1 ++ l2)%list
            = dict_get Z.eqb x (l1 ++ (k, c) :: l2)%list)
    as Hg.
  { intros x Hx. rewrite !dict_get_app. simpl.
    destruct (Z.eqb_spec x k); [contradiction | reflexivity]. }
  rewrite !filter_app. cbn [filter].
  rewrite (filter_ext_in _
             (fun x => match dict_get Z.eqb x (l1 ++ (k, c) :: l2)%list with
                       | Some c0 => query_test (lower q) c0
                       | None => false
                       end) (map fst l1))
    by (intros x Hx; rewrite Hg; [reflexivity | intros ->; contradiction]).
  rewrite (filter_ext_in _
             (fun x => match dict_get Z.eqb x (l1 ++ (k, c) :: l2)%list with
                       | Some c0 => query_test (lower q) c0
                       | None => false
                       end) (map fst l2))
    by (intros x Hx; rewrite Hg; [reflexivity | intros ->; contradiction]).
  destruct (match dict_get Z.eqb k (l1 ++ (k, c) :: l2)%list with
            | Some c0 => query_test (lower q) c0
            | None => false
            end);
    rewrite ?filter_app; cbn [filter]; rewrite ?Z.eqb_refl; cbn [negb];
    now rewrite !filter_other.
Qed.

(** X17. Import does not look for duplicates: on a store that satisfies the
    invariant, importing twice the same file, one that the csv reader can
    read to its end, returns both times, and the second import adds the
    contacts the first one added once more, under the next fresh ids. *)
Theorem import_twice_duplicates (st : State) (f : csv_file) :
  invariant st ->
  file st = Some f ->
  all_readable f = true ->
  exists st1 st2 new,
    action_import st = Ok tt st1
    /\ action_import st1 = Ok tt st2
    /\ contacts st1 = (contacts st ++ numbered (next_id st) new)%list
    /\ contacts st2 = (contacts st1 ++ numbered (next_id st1) new)%list
    /\ next_id st1 = next_id st + Z.of_nat (length new)
    /\ next_id st2 = next_id st1 + Z.of_nat (length new).
Proof.
  intros (_ & _ & Hk & _) Hf Hr.
  assert (forall k, In k (dict_keys (contacts st)) -> k < next_id st) as Hlt
    by (intros k H; apply Hk in H; lia).
  do 2 eexists. exists (imported (DictReader f)).
  split; [apply (action_import_eq st f Hf Hr Hlt)|].
  split.
  { apply (action_import_eq _ f);
      cbn [contacts next_id file]; [reflexivity | exact Hr |].
    intros k H. unfold dict_keys in H. rewrite map_app in H.
    apply in_app_or in H. destruct H as [H | H];
      [apply Hlt in H | apply keys_numbered_ge in H]; lia. }
  split; [reflexivity | split; [reflexivity | split; reflexivity]].
Qed.

(** X18. An empty file, and a file whose records after the header are all
    blank and whose header the csv reader can read (no cell of it has more
    than 131072 characters), import nothing: on a store that satisfies the
    invariant [action_import] prints that it imported nothing, then a blank
    line, with no row error, and leaves the contacts and the counter as they
    are. *)
Theorem import_of_no_rows (st : State) (f : csv_file) :
  invariant st ->
  file st = Some f ->
  readable (hd [] f) = true ->
  (forall r, In r (tl f) -> r = []) ->
  action_import st = Ok tt (printed st ["✔ Imported nothing 🤷!"; ""]).
Proof.
  intros (_ & _ & Hk & _) Hf Hh Hb.
  assert (all_readable f = true) as Hr.
  { unfold all_readable. destruct f as [|h records]; [reflexivity|].
    cbn [forallb hd tl] in *. rewrite Hh. cbn [andb].
    apply forallb_forall. intros r Hin. now rewrite (Hb r Hin). }
  rewrite (action_import_eq st f Hf Hr) by (intros k H; apply Hk in H; lia).
  assert (DictReader f = []) as ->.
  { clear Hf Hr. destruct f as [|h records]; [reflexivity|]. simpl in *.
    induction records as [|r records IH]; [reflexivity|]. simpl.
    rewrite (Hb r (or_introl eq_refl)). simpl. apply IH.
    intros r' Hr'. apply Hb. now right. }
  unfold printed. simpl. rewrite app_nil_r, Z.add_0_r. now rewrite Hf.
Qed.

(** X19. The email column may be short: under the header
    [name, phone, email], a record of two non-empty cells is imported with
    the email [None], a record of one cell is skipped for its empty phone,
    and the cells after the third count for nothing. *)
Theorem import_short_record (n p : string) (i : nat) (acc : Z * bool) (st : State) :
  n <> "" -> p <> "" ->
  import_body i (zip_row DictWriter_header [n; p] []) acc st
  = Ok (fst acc + 1, snd acc)
       (mkState (dict_setitem Z.eqb (next_id st)
                   (mkContact (VStr n) (VStr p) VNone) (contacts st))
          (next_id st + 1) (stdout st) (file st))
  /\ import_body i (zip_row DictWriter_header [n] []) acc st
     = Ok (fst acc, true)
          (printed st ["❌ Error in row " ++ str_of_nat i ++ " (skipping): "
                       ++ "phone is empty; please provide a non-empty phone"
                       ++ " 🤔."])
  /\ (forall e extra,
        import_body i (zip_row DictWriter_header (n :: p :: e :: extra) []) acc st
        = import_body i (zip_row DictWriter_header [n; p; e] []) acc st).
Proof.
  intros Hn Hp. rewrite !import_body_eq.
  destruct n as [|a n]; [congruence|]. destruct p as [|b p]; [congruence|].
  repeat split.
Qed.

End Program.

(** ** Concrete runs *)

Lemma sample_store_invariant : invariant simple_validate_email sample_store.
Proof.
  unfold invariant, sample_store; simpl. split; [|split; [lia|split]].
  - constructor; [|constructor; [|constructor]]; unfold valid_contact; simpl.
    + split; [|split]; try (eexists; split; [reflexivity | discriminate]).
      right; right. eexists. split; reflexivity.
    + split; [|split]; try (eexists; split; [reflexivity | discriminate]).
      now left.
  - intros k [<-|[<-|[]]]; lia.
  - repeat constructor; simpl; intuition discriminate.
Qed.

Lemma sample_session_reaches :
  let st := state_of (session simple_validate_email ascii_lower "contacts.csv"
                        sample_session (initial None)) in
  contacts st = contacts sample_store /\ next_id st = next_id sample_store.
Proof. vm_compute. split; reflexivity. Qed.

(** C1 at a triple on which three checks fail (the phone is no text, the
    name is empty, the email is malformed): the error is the one of the
    type-check of the phone. *)
Lemma Contact_init_check_order_witness :
  Contact_init simple_validate_email (VStr "") (VInt 3) (VStr "not-an-email")
    (initial None)
  = Raise (ValidationError not_str_phone) (initial None).
Proof.
  apply (proj1 (Contact_init_check_order simple_validate_email
                  (VStr "") (VInt 3) (VStr "not-an-email") (initial None))
           1%nat (fun a => not_text (snd (fst a))) not_str_phone).
  - reflexivity.
  - reflexivity.
  - intros [|j] chk' err' Hj Hn; [|lia]. injection Hn as <- _. reflexivity.
Defined.

(** C3 at the query ["ADA"] on the sample store. *)
Lemma query_sound_complete_witness :
  exists ids,
    query ascii_lower (VStr "ADA") sample_store = Ok ids sample_store
    /\ (forall id, In id ids <->
          exists c, dict_get Z.eqb id (contacts sample_store) = Some c
                    /\ matches ascii_lower "ADA" c)
    /\ subseq ids (dict_keys (contacts sample_store))
    /\ NoDup ids.
Proof.
  exact (query_sound_complete simple_validate_email ascii_lower
           "ADA" sample_store sample_store_invariant).
Defined.

Lemma sample_store_fits : Forall fits (map snd (contacts sample_store)).
Proof. repeat constructor. Qed.

(** C4, amended, on the sample store: the two contacts come back under the
    ids 3 and 4, the second with the empty text as email. *)
Lemma round_trip_up_to_absent_email_witness :
  exists st',
    export_then_import simple_validate_email "contacts.csv" sample_store = Ok tt st'
    /\ contacts st'
       = [(0, ada); (2, quinn); (3, ada); (4, mkContact (VStr "Q") (VStr "1") (VStr ""))]
    /\ next_id st' = 5.
Proof.
  eexists. split.
  - apply (round_trip_up_to_absent_email simple_validate_email
             "contacts.csv" sample_store sample_store_invariant
             sample_store_fits).
  - split; reflexivity.
Defined.

(** C4 as it is worded fails on a reachable store: the contact imported
    without email has [None] as email, and comes back with the empty text. *)
Lemma exact_round_trip_counterexample :
  ~ exact_round_trip simple_validate_email "contacts.csv"
      (state_of (session simple_validate_email ascii_lower "contacts.csv"
                   sample_session (initial None))).
Proof. unfold exact_round_trip. vm_compute. discriminate. Qed.

(** C5 at the second example of the specification, [create("", "555", None)]. *)
Lemma create_failure_no_mutation_witness :
  create simple_validate_email (VStr "") (VStr "555") VNone sample_store
  = Raise (ValidationError empty_name) sample_store
  /\ contacts (state_of (action_create simple_validate_email
                           (VStr "") (VStr "555") VNone sample_store))
     = contacts sample_store
  /\ next_id (state_of (action_create simple_validate_email
                          (VStr "") (VStr "555") VNone sample_store))
     = next_id sample_store.
Proof.
  destruct (create_failure_no_mutation simple_validate_email
              (VStr "") (VStr "555") VNone sample_store
              (ValidationError empty_name) sample_store eq_refl)
    as (_ & _ & H1 & H2 & H3 & _).
  exact (conj H1 (conj H2 H3)).
Defined.

(** Characters are counted, not bytes: an accented letter and an emoji are
    one character each. *)
Example codepoints_examples :
  codepoints "Zoé" = 3 /\ codepoints "🤷" = 1.
Proof. split; reflexivity. Qed.

Lemma long_name_codepoints : codepoints long_name = 131073.
Proof. vm_compute. reflexivity. Qed.

Lemma long_name_unreadable : readable [long_name; "2"; ""] = false.
Proof. unfold readable. cbn [forallb]. now rewrite long_name_codepoints. Qed.

(** C7 at a file whose second record has a name of 131073 characters, on
    the empty store: the import ends in [_csv.Error]; Ada, of the record
    before, is stored, Zed, of the record behind, is not, and nothing was
    printed. *)
Lemma import_aborts_at_unreadable_record_witness :
  action_import simple_validate_email "contacts.csv" (initial (Some oversize_file))
  = Raise csv_Error
      (mkState [(0, mkContact (VStr "Ada") (VStr "1") (VStr ""))] 1 []
         (Some oversize_file))
  /\ session simple_validate_email ascii_lower "contacts.csv"
       [Act Import; Act List_] (initial (Some oversize_file))
     = action_import simple_validate_email "contacts.csv"
         (initial (Some oversize_file)).
Proof.
  destruct (import_aborts_at_unreadable_record simple_validate_email ascii_lower
              "contacts.csv" (initial (Some oversize_file))
              ["name"; "phone"; "email"] [["Ada"; "1"; ""]] [long_name; "2"; ""]
              [["Zed"; "123"; ""]]
              (invariant_initial simple_validate_email (Some oversize_file))
              eq_refl eq_refl long_name_unreadable)
    as (H1 & _ & H3).
  exact (conj H1 (H3 [Act List_])).
Defined.

(** X20 at the example of the specification: the row of Ann is skipped for
    its empty phone, the row of Zed is imported; the count is 1 and the flag
    is set. *)
Lemma import_row_by_row_witness :
  exists st',
    import_rows simple_validate_email (initial (Some sample_file)) = Ok (1, true) st'
    /\ contacts st' = [(0, zed)]
    /\ next_id st' = 1.
Proof.
  eexists. split.
  - apply (import_row_by_row simple_validate_email "contacts.csv"
             (initial (Some sample_file)) sample_file eq_refl
             (invariant_initial simple_validate_email (Some sample_file))
             eq_refl).
  - split; reflexivity.
Defined.

(** C8 on the sample store, deleting the contact of id 0. *)
Lemma delete_then_not_found_witness :
  let st' := mkState [(2, quinn)] 3 [] None in
  contacts_getitem 0 st' = Raise (KeyError 0) st'
  /\ contacts_delitem 0 st' = Raise (KeyError 0) st'.
Proof.
  destruct (delete_then_not_found simple_validate_email 0 sample_store
              (mkState [(2, quinn)] 3 [] None) sample_store_invariant eq_refl)
    as (H1 & H2 & _).
  exact (conj H1 H2).
Defined.

(** C9 on the sample store. *)
Lemma query_empty_returns_all_witness :
  query ascii_lower (VStr "") sample_store = Ok [0; 2] sample_store.
Proof.
  exact (query_empty_returns_all simple_validate_email ascii_lower
           sample_store sample_store_invariant eq_refl).
Defined.

(** The examples of the specification, run: Ada is created under id 0, the
    empty name and the malformed email are refused with their messages, and
    the query ["ada"] finds id 0. *)
Example specification_examples :
  let run := session simple_validate_email ascii_lower "contacts.csv" in
  let st := state_of (run [ Act (Create (VStr "Ada Lovelace") (VStr "555-1234")
                                        (VStr "ada@example.com"));
                            Act (Create (VStr "") (VStr "555") VNone);
                            Act (Create (VStr "Bob") (VStr "555")
                                        (VStr "not-an-email")) ]
                          (initial None)) in
  contacts st = [(0, ada)]
  /\ next_id st = 1
  /\ stdout st = [ ""; "✔ Created!"; "";
                   ""; "❌ Error: name is empty; please provide a non-empty name 🤔."; "";
                   ""; "❌ Error: email is malformed; please provide a valid email 🤔."; "" ]
  /\ query ascii_lower (VStr "ada") st = Ok [0] st.
Proof. vm_compute. repeat split. Qed.


(** ** Concrete runs of the further properties *)

Lemma text_store_invariant : invariant simple_validate_email text_store.
Proof.
  unfold invariant, text_store; simpl. split; [|split; [lia|split]].
  - constructor; [|constructor; [|constructor]]; unfold valid_contact; simpl.
    + split; [|split]; try (eexists; split; [reflexivity | discriminate]).
      right; right. eexists. split; reflexivity.
    + split; [|split]; try (eexists; split; [reflexivity | discriminate]).
      right; now left.
  - intros k [<-|[<-|[]]]; lia.
  - repeat constructor; simpl; intuition discriminate.
Qed.

(** X3 on the sample store: two ids of the store, and an id that is none. *)
Lemma listt_prints_or_KeyError_witness :
  listt [2; 0] sample_store
  = Ok tt (printed sample_store
             ["🧑 Q / ☎ 1"; "🧑 Ada Lovelace / ☎ 555-1234 / 📧 ada@example.com"])
  /\ listt [0; 7; 2] sample_store
     = Raise (KeyError 7)
         (printed sample_store
            ["🧑 Ada Lovelace / ☎ 555-1234 / 📧 ada@example.com"]).
Proof.
  destruct (listt_prints_or_KeyError simple_validate_email sample_store
              sample_store_invariant) as [H1 H2].
  split.
  - apply (H1 [2; 0]). intros k [<-|[<-|[]]]; simpl; tauto.
  - apply (H2 [0] 7 [2]).
    + intros k [<-|[]]; simpl; tauto.
    + simpl. intros [H|[H|[]]]; discriminate.
Defined.

(** X4 on the sample store. *)
Lemma action_list_prints_all_witness :
  action_list sample_store
  = Ok tt (printed sample_store
             ["🧑 Ada Lovelace / ☎ 555-1234 / 📧 ada@example.com"; "🧑 Q / ☎ 1"; ""]).
Proof.
  exact (action_list_prints_all simple_validate_email sample_store
           sample_store_invariant).
Defined.

(** X5 on the sample store, searching ["ada"]. *)
Lemma action_search_prints_matches_witness :
  exists ids,
    query ascii_lower (VStr "ada") sample_store = Ok ids sample_store
    /\ action_search ascii_lower (VStr "ada") sample_store
       = Ok tt (printed sample_store
                  ([""]
                   ++ match ids with
                      | [] => ["Found no matches 🤦! Try a different query."]
                      | _ => lines_of (contacts sample_store) ids
                      end
                   ++ [""])%list).
Proof.
  exact (proj2 (proj2 (action_search_prints_matches simple_validate_email
                         ascii_lower sample_store sample_store_invariant))
           "a"%char "da").
Defined.

(** X6 on the sample store, the confirmation left unanswered. *)
Lemma action_delete_unconfirmed_keeps_store_witness :
  same_store sample_store
    (state_of (action_delete ascii_lower (VStr "q") 0 None sample_store)).
Proof.
  apply (action_delete_unconfirmed_keeps_store ascii_lower (VStr "q") 0 None
           sample_store).
  discriminate.
Defined.

(** X7 on the sample store, deleting the one contact that matches ["ada"]. *)
Lemma action_delete_removes_choice_witness :
  exists ids,
    query ascii_lower (VStr "ada") sample_store = Ok ids sample_store
    /\ next_id (state_of (menu_turn simple_validate_email ascii_lower "contacts.csv"
                            (Delete (VStr "ada") 0 (Some true)) sample_store))
       = next_id sample_store
    /\ match delete_choice ids 0 with
       | Some k =>
           In k ids
           /\ exists l1 c l2,
               contacts sample_store = (l1 ++ (k, c) :: l2)%list
               /\ contacts (state_of (menu_turn simple_validate_email ascii_lower
                                        "contacts.csv"
                                        (Delete (VStr "ada") 0 (Some true))
                                        sample_store))
                  = (l1 ++ l2)%list
               /\ ~ In k (dict_keys (l1 ++ l2)%list)
       | None =>
           contacts (state_of (menu_turn simple_validate_email ascii_lower
                                 "contacts.csv"
                                 (Delete (VStr "ada") 0 (Some true)) sample_store))
           = contacts sample_store
       end.
Proof.
  apply (action_delete_removes_choice simple_validate_email ascii_lower
           "contacts.csv" "ada" 0 sample_store sample_store_invariant).
  discriminate.
Defined.

(** X9 on the sample store, which has no file. *)
Lemma action_import_without_file_witness :
  action_import simple_validate_email "contacts.csv" sample_store
  = Ok tt (printed sample_store [file_not_found_message "contacts.csv"; ""]).
Proof.
  exact (action_import_without_file simple_validate_email "contacts.csv"
           sample_store eq_refl).
Defined.


(** X11 on the sample store: ["a"] finds whatever ["ADA"] finds. *)
Lemma query_narrows_witness :
  exists ids1 ids2,
    query ascii_lower (VStr "a") sample_store = Ok ids1 sample_store
    /\ query ascii_lower (VStr "ADA") sample_store = Ok ids2 sample_store
    /\ forall k, In k ids2 -> In k ids1.
Proof.
  apply (query_narrows simple_validate_email ascii_lower "a" "ADA" sample_store
           sample_store_invariant).
  exists "", "da". reflexivity.
Defined.

(** X12 on a store of two contacts with text emails. *)
Lemma round_trip_exact_without_None_witness :
  exact_round_trip simple_validate_email "contacts.csv" text_store.
Proof.
  apply (round_trip_exact_without_None simple_validate_email "contacts.csv"
           text_store text_store_invariant).
  - intros c [<-|[<-|[]]]; discriminate.
  - repeat constructor.
Defined.

(** X13 on the sample store. *)
Lemma action_export_writes_store_witness :
  action_export sample_store
  = Ok tt (mkState (contacts sample_store) 3 ["✔ Exported!"; ""]
             (Some [ ["name"; "phone"; "email"];
                     ["Ada Lovelace"; "555-1234"; "ada@example.com"];
                     ["Q"; "1"; ""] ])).
Proof.
  exact (proj1 (action_export_writes_store simple_validate_email sample_store
                  sample_store_invariant)).
Defined.

(** X14 on a file without name column, with one record and a blank one. *)
Lemma import_without_name_or_phone_column_witness :
  let st := initial (Some [["phone"; "email"]; ["1"; "x@y.com"]; []]) in
  contacts (state_of (import_rows simple_validate_email st)) = []
  /\ next_id (state_of (import_rows simple_validate_email st)) = 0
  /\ exists st', import_rows simple_validate_email st = Ok (0, true) st'.
Proof.
  assert (~ In "name" ["phone"; "email"]) as Hn
    by (intros [H|[H|[]]]; discriminate).
  destruct (import_without_name_or_phone_column simple_validate_email
              (initial (Some [["phone"; "email"]; ["1"; "x@y.com"]; []]))
              ["phone"; "email"] [["1"; "x@y.com"]; []]
              (invariant_initial simple_validate_email _) eq_refl
              (or_introl Hn))
    as (H1 & H2 & H3).
  exact (conj H1 (conj H2 (H3 eq_refl))).
Defined.

(** X15 on the sample store, creating Zed. *)
Lemma create_then_find_witness :
  let st' := mkState [(0, ada); (2, quinn); (3, zed)] 4 [] None in
  contacts_getitem 3 st' = Ok zed st'
  /\ exists ids, query ascii_lower (VStr "Zed") st' = Ok ids st' /\ In 3 ids.
Proof.
  exact (create_then_find simple_validate_email ascii_lower "Zed" (VStr "123")
           (VStr "") sample_store
           (mkState [(0, ada); (2, quinn); (3, zed)] 4 [] None)
           sample_store_invariant eq_refl).
Defined.

(** X16 on the sample store, deleting the contact of id 0. *)
Lemma delete_then_query_witness :
  let st' := mkState [(2, quinn)] 3 [] None in
  exists ids ids',
    query ascii_lower (VStr "1") sample_store = Ok ids sample_store
    /\ query ascii_lower (VStr "1") st' = Ok ids' st'
    /\ ids' = filter (fun x => negb (x =? 0)) ids.
Proof.
  exact (delete_then_query simple_validate_email ascii_lower 0 "1" sample_store
           (mkState [(2, quinn)] 3 [] None) sample_store_invariant eq_refl).
Defined.

(** X17 on the file of the example of the specification. *)
Lemma import_twice_duplicates_witness :
  exists st1 st2 new,
    action_import simple_validate_email "contacts.csv" (initial (Some sample_file))
    = Ok tt st1
    /\ action_import simple_validate_email "contacts.csv" st1 = Ok tt st2
    /\ contacts st1
       = (contacts (initial (Some sample_file))
          ++ numbered (next_id (initial (Some sample_file))) new)%list
    /\ contacts st2 = (contacts st1 ++ numbered (next_id st1) new)%list
    /\ next_id st1 = next_id (initial (Some sample_file)) + Z.of_nat (length new)
    /\ next_id st2 = next_id st1 + Z.of_nat (length new).
Proof.
  apply (import_twice_duplicates simple_validate_email "contacts.csv"
           (initial (Some sample_file)) sample_file).
  - apply invariant_initial.
  - reflexivity.
  - reflexivity.
Defined.

(** X18 on a file made of the header and a blank record. *)
Lemma import_of_no_rows_witness :
  action_import simple_validate_email "contacts.csv"
    (initial (Some [["name"; "phone"; "email"]; []]))
  = Ok tt (printed (initial (Some [["name"; "phone"; "email"]; []]))
             ["✔ Imported nothing 🤷!"; ""]).
Proof.
  apply (import_of_no_rows simple_validate_email "contacts.csv"
           (initial (Some [["name"; "phone"; "email"]; []]))
           [["name"; "phone"; "email"]; []]).
  - apply invariant_initial.
  - reflexivity.
  - reflexivity.
  - intros r [<-|[]]. reflexivity.
Defined.

(** X19 on the record [Q, 1]. *)
Lemma import_short_record_witness :
  import_body simple_validate_email 0
    (zip_row DictWriter_header ["Q"; "1"] []) (0, false) (initial None)
  = Ok (1, false) (mkState [(0, quinn)] 1 [] None).
Proof.
  apply (proj1 (import_short_record simple_validate_email "Q" "1" 0 (0, false)
                  (initial None)
                  ltac:(discriminate) ltac:(discriminate))).
Defined.
